(** * GOST 34.12-2015 "Kuznechik" as implemented in gost3412.py

    A shallow embedding of the module gost3412.py (tables, field
    multiplier, linear transform, key schedule, block transform) and the
    properties its specification states about it.

    Python values are modelled as follows.
    - An int is a [Z].
    - A bytes object, a bytearray and a list of small ints are a [list Z];
      the stores that Python range-checks (item assignment into a
      bytearray) go through [ba_setitem].
    - A raised exception is the [Raise] branch of [result]; a loop that
      never exits is [Raise Diverge].
    - In-place mutation of a sequence is explicit state passing: the
      mutated sequence is threaded through the loop bodies. *)

From Stdlib Require Import ZArith Lia List String Ascii Bool.
From stdpp Require Import base list gmap.

Local Open Scope Z_scope.

(** ** Exceptions and the error monad *)

Inductive exn : Type :=
| IndexError   (* sequence index out of range *)
| ValueError   (* byte must be in range(0, 256) *)
| TypeError    (* an object of the wrong kind *)
| Diverge.     (* the loop does not terminate *)

Inductive result (A : Type) : Type :=
| Ok (a : A)
| Raise (e : exn).

Arguments Ok {A} a.
Arguments Raise {A} e.

Definition bind {A B : Type} (m : result A) (k : A -> result B) : result B :=
  match m with
  | Ok a => k a
  | Raise e => Raise e
  end.

Notation "x <- m ;; k" := (bind m (fun x => k))
  (at level 100, m at next level, right associativity).

Definition is_ok {A : Type} (m : result A) : Prop :=
  match m with Ok _ => True | Raise _ => False end.

Definition unwrap {A : Type} (d : A) (m : result A) : A :=
  match m with Ok a => a | Raise _ => d end.

(** ** Python sequence primitives *)

(** [l[i]] with Python's negative-index wrap-around. *)
Definition getitem {A : Type} (l : list A) (i : Z) : result A :=
  let j := if i <? 0 then i + Z.of_nat (length l) else i in
  if j <? 0 then Raise IndexError
  else match l !! Z.to_nat j with
       | Some x => Ok x
       | None => Raise IndexError
       end.

(** [l[i] = v] on a list. *)
Definition setitem {A : Type} (l : list A) (i : Z) (v : A) : result (list A) :=
  let j := if i <? 0 then i + Z.of_nat (length l) else i in
  if j <? 0 then Raise IndexError
  else if j <? Z.of_nat (length l) then Ok (<[Z.to_nat j := v]> l)
  else Raise IndexError.

(** [b[i] = v] on a bytearray: the value must be a byte. *)
Definition ba_setitem (l : list Z) (i v : Z) : result (list Z) :=
  if (0 <=? v) && (v <? 256) then setitem l i v else Raise ValueError.

(** [bytearray(n)]: n zero bytes. *)
Definition bytearray (n : nat) : list Z := repeat 0 n.

(** [range(start, stop, step)]; the program only uses the steps 1 and -1. *)
Definition range (start stop step : Z) : list Z :=
  let n := if 0 <? step then (stop - start + step - 1) / step
           else (start - stop - step - 1) / (- step) in
  map (fun k => start + Z.of_nat k * step) (seq 0 (Z.to_nat n)).

(** [for x in xs: s = body(x, s)] *)
Fixpoint for_ {S : Type} (xs : list Z) (body : Z -> S -> result S) (s : S)
  : result S :=
  match xs with
  | [] => Ok s
  | x :: xs' => s' <- body x s ;; for_ xs' body s'
  end.

(** [[f(v) for v in l]] *)
Fixpoint comprehension {A B : Type} (f : A -> result B) (l : list A)
  : result (list B) :=
  match l with
  | [] => Ok []
  | v :: l' => b <- f v ;; bs <- comprehension f l' ;; Ok (b :: bs)
  end.

(** Modelled from the spec: [utils.strxor] is imported by gost3412.py but
    its module is not among the sources. The spec writes every use of it
    as the XOR of two blocks ("block XOR roundkey[i]"): for two byte
    strings of the same length it is their position-wise XOR. What it does
    with operands of different lengths is written nowhere; the properties
    below apply it to operands of the same length only. *)
Definition strxor (a b : list Z) : list Z := zip_with Z.lxor a b.

(** ** Module constants *)

Definition KEYSIZE : Z := 32.

Definition LC : list Z :=
  [148; 32; 133; 16; 194; 192; 1; 251; 1; 192; 194; 16; 133; 32; 148; 1].

Definition PI : list Z := [
  159; 22; 243; 168; 16; 239; 32; 153; 130; 191; 125; 220; 228; 81; 154; 143; 
  10; 223; 175; 253; 195; 103; 188; 189; 198; 238; 222; 240; 185; 54; 99; 47; 
  23; 172; 72; 53; 124; 24; 139; 67; 249; 161; 4; 149; 41; 186; 250; 132; 133; 
  0; 44; 51; 57; 66; 234; 200; 2; 28; 212; 187; 117; 129; 193; 237; 148; 226; 
  227; 242; 108; 76; 120; 146; 165; 119; 210; 169; 70; 213; 111; 21; 33; 151; 
  174; 26; 182; 235; 199; 95; 89; 74; 90; 17; 34; 138; 192; 8; 64; 141; 49; 
  155; 93; 39; 109; 65; 203; 206; 236; 255; 233; 104; 82; 83; 163; 171; 25; 
  245; 118; 135; 216; 101; 27; 102; 183; 68; 29; 246; 142; 43; 75; 19; 136; 
  80; 121; 116; 40; 181; 252; 5; 14; 42; 224; 115; 251; 209; 218; 3; 58; 244; 
  127; 15; 112; 180; 6; 221; 97; 1; 140; 211; 229; 46; 107; 122; 69; 254; 96; 
  110; 37; 184; 55; 7; 62; 123; 170; 232; 150; 147; 92; 128; 114; 77; 71; 166; 
  167; 207; 173; 164; 126; 177; 78; 79; 247; 157; 30; 196; 131; 225; 52; 219; 
  63; 156; 85; 137; 179; 241; 215; 87; 231; 214; 50; 35; 208; 134; 202; 31; 
  105; 11; 60; 84; 12; 100; 88; 197; 205; 36; 152; 144; 94; 18; 91; 178; 145; 
  106; 61; 217; 190; 86; 201; 48; 59; 13; 248; 73; 160; 113; 9; 20; 158; 
  230; 56; 38; 204; 45; 194; 176; 98; 162].

(** ** Inverse substitution table, filled at import time *)

Definition PIinv_init : result (list Z) :=
  for_ (range 0 256 1)
       (fun x PIinv => p <- getitem PI x ;; ba_setitem PIinv p x)
       (bytearray 256).

Definition PIinv : list Z := Eval vm_compute in unwrap [] PIinv_init.

(** ** Field multiplier *)

(** The body of [while b: ...]; [fuel] bounds the number of iterations. *)
Fixpoint gf_loop (fuel : nat) (a b c : Z) : result Z :=
  if b =? 0 then Ok c
  else match fuel with
       | O => Raise Diverge
       | S fuel' =>
           let c := if Z.land b 1 =? 0 then c else Z.lxor c a in
           let a := if Z.land a 0x80 =? 0 then Z.shiftl a 1
                    else Z.lxor (Z.shiftl a 1) 0x1C3 in
           gf_loop fuel' a (Z.shiftr b 1) c
       end.

(** [b >>= 1] reaches 0 after [log2 b + 1] iterations when [b > 0], and
    never when [b < 0]. *)
Definition gf (a b : Z) : result Z :=
  gf_loop (S (Z.to_nat (Z.log2 b))) a b 0.

(** ** Multiplication table, filled at import time *)

Definition GF_init : result (list (list Z)) :=
  for_ (range 0 256 1)
       (fun x GF =>
          for_ (range 0 256 1)
               (fun y GF =>
                  v <- gf x y ;;
                  row <- getitem GF x ;;
                  row <- ba_setitem row y v ;;
                  setitem GF x row)
               GF)
       (repeat (bytearray 256) 256).

Definition GF : list (list Z) := Eval vm_compute in unwrap [] GF_init.

(** ** Linear transform and its inverse *)

(** The default value of the parameter [rounds] of [L]. *)
Definition L_rounds_default : Z := 16.

(** One pass of the outer loop of [L]: the register shifts towards the
    high index and the feedback byte enters at index 0. *)
Definition L_round (blk : list Z) : result (list Z) :=
  t <- getitem blk 15 ;;
  st <- for_ (range 14 (-1) (-1))
          (fun i st =>
             let '(blk, t) := st in
             v <- getitem blk i ;;
             blk <- setitem blk (i + 1) v ;;
             bi <- getitem blk i ;;
             row <- getitem GF bi ;;
             lc <- getitem LC i ;;
             g <- getitem row lc ;;
             Ok (blk, Z.lxor t g))
          (blk, t) ;;
  let '(blk, t) := st in
  setitem blk 0 t.

Definition L (blk : list Z) (rounds : Z) : result (list Z) :=
  for_ (range 0 rounds 1) (fun _ blk => L_round blk) blk.

(** One pass of the outer loop of [Linv]. *)
Definition Linv_round (blk : list Z) : result (list Z) :=
  t <- getitem blk 0 ;;
  st <- for_ (range 0 15 1)
          (fun i st =>
             let '(blk, t) := st in
             v <- getitem blk (i + 1) ;;
             blk <- setitem blk i v ;;
             bi <- getitem blk i ;;
             row <- getitem GF bi ;;
             lc <- getitem LC i ;;
             g <- getitem row lc ;;
             Ok (blk, Z.lxor t g))
          (blk, t) ;;
  let '(blk, t) := st in
  setitem blk 15 t.

Definition Linv (blk : list Z) : result (list Z) :=
  for_ (range 0 16 1) (fun _ blk => Linv_round blk) blk.

(** ** Round constants, filled at import time *)

Definition C_init : result (list (list Z)) :=
  for_ (range 1 33 1)
       (fun x C =>
          y <- ba_setitem (bytearray 16) 15 x ;;
          y <- L y L_rounds_default ;;
          Ok (C ++ [y]))
       [].

Definition C : list (list Z) := Eval vm_compute in unwrap [] C_init.

Definition lp (blk : list Z) : result (list Z) :=
  blk <- comprehension (fun v => getitem PI v) blk ;;
  L blk L_rounds_default.

(** ** The cipher class *)

Module GOST3412Kuznechik.

(** An instance holds the round keys. *)
Record t : Type := { ks : list (list Z) }.

Definition blocksize : Z := 16.

(** [__init__]: the key schedule. *)
Definition init (key : list Z) : result t :=
  let kr0 := take 16 key in
  let kr1 := drop 16 key in
  st <- for_ (range 0 4 1)
          (fun i st =>
             st <- for_ (range 0 8 1)
                     (fun j st =>
                        let '(kr0, kr1, ks) := st in
                        c <- getitem C (8 * i + j) ;;
                        k <- lp (strxor c kr0) ;;
                        Ok (strxor k kr1, kr0, ks))
                     st ;;
             let '(kr0, kr1, ks) := st in
             Ok (kr0, kr1, (ks ++ [kr0]) ++ [kr1]))
          (kr0, kr1, [kr0; kr1]) ;;
  let '(_, _, ks) := st in
  Ok {| ks := ks |}.

Definition encrypt (self : t) (blk : list Z) : result (list Z) :=
  blk <- for_ (range 0 9 1)
           (fun i blk => k <- getitem (ks self) i ;; lp (strxor k blk))
           blk ;;
  k <- getitem (ks self) 9 ;;
  Ok (strxor k blk).

Definition decrypt (self : t) (blk : list Z) : result (list Z) :=
  blk <- for_ (range 9 0 (-1))
           (fun i blk =>
              k <- getitem (ks self) i ;;
              blk <- Linv (strxor k blk) ;;
              comprehension (fun v => getitem PIinv v) blk)
           blk ;;
  k <- getitem (ks self) 0 ;;
  Ok (strxor k blk).

End GOST3412Kuznechik.

(** ** Hexadecimal encodings of byte strings *)

Definition hex_digit (n : Z) : ascii :=
  match n with
  | 0 => "0" | 1 => "1" | 2 => "2" | 3 => "3" | 4 => "4" | 5 => "5"
  | 6 => "6" | 7 => "7" | 8 => "8" | 9 => "9" | 10 => "a" | 11 => "b"
  | 12 => "c" | 13 => "d" | 14 => "e" | _ => "f"
  end%char.

Fixpoint hexlify (b : list Z) : string :=
  match b with
  | [] => EmptyString
  | v :: b' => String (hex_digit (v / 16)) (String (hex_digit (v mod 16)) (hexlify b'))
  end.

Definition kat_key : list Z :=
  [0x88; 0x99; 0xaa; 0xbb; 0xcc; 0xdd; 0xee; 0xff;
   0x00; 0x11; 0x22; 0x33; 0x44; 0x55; 0x66; 0x77;
   0xfe; 0xdc; 0xba; 0x98; 0x76; 0x54; 0x32; 0x10;
   0x01; 0x23; 0x45; 0x67; 0x89; 0xab; 0xcd; 0xef].

Definition kat_plain : list Z :=
  [0x11; 0x22; 0x33; 0x44; 0x55; 0x66; 0x77; 0x00;
   0xff; 0xee; 0xdd; 0xcc; 0xbb; 0xaa; 0x99; 0x88].

(** The ciphertext the specification gives for this key and block. *)
Definition kat_cipher_spec : list Z :=
  [0x7f; 0x67; 0x9d; 0x90; 0xbe; 0xbc; 0x24; 0x30;
   0x5a; 0x46; 0x8d; 0x42; 0xb9; 0xd4; 0xed; 0xcd].


(** ** Well-formed byte strings *)

Definition byte (v : Z) : Prop := 0 <= v < 256.

(** A byte string of [n] bytes. *)
Definition bytes (n : nat) (b : list Z) : Prop :=
  length b = n /\ Forall byte b.

Definition byteb (v : Z) : bool := (0 <=? v) && (v <? 256).

Definition result_eqb (m1 m2 : result Z) : bool :=
  match m1, m2 with
  | Ok a, Ok b => a =? b
  | _, _ => false
  end.

(** [GF[x][y]] *)
Definition GF_lookup (x y : Z) : result Z :=
  row <- getitem GF x ;; getitem row y.

(** Checkers run over all byte values by the exhaustive proofs. *)
Definition PI_check (x : Z) : bool :=
  match getitem PI x, getitem PIinv x with
  | Ok y, Ok z =>
      byteb y && byteb z &&
      result_eqb (getitem PIinv y) (Ok x) && result_eqb (getitem PI z) (Ok x)
  | _, _ => false
  end.

(** [gf(a, b)], 0 where the call would not return. *)
Definition gf_value (a b : Z) : Z := unwrap 0 (gf a b).

(** Row [a] of the table against the multiplier: each entry is the byte
    [gf(a, b)], which is also [gf(b, a)]. *)
Definition GF_row_check (a : Z) : bool :=
  match getitem GF a with
  | Ok row =>
      (length row =? 256)%nat &&
      forallb (fun bv =>
                 match gf a (fst bv) with
                 | Ok c =>
                     byteb c && result_eqb (gf (fst bv) a) (Ok c)
                     && (snd bv =? c)
                 | Raise _ => false
                 end)
              (zip (range 0 256 1) row)
  | Raise _ => false
  end.

Definition gf_check (a b : Z) : bool :=
  match gf a b with
  | Ok c => byteb c && result_eqb (gf b a) (Ok c) && result_eqb (GF_lookup a b) (Ok c)
  | Raise _ => false
  end.

(** ** The transforms as total functions on 16-byte blocks

    These are the values the loops above compute when nothing raises;
    the lemmas [L_round_ok], [Linv_round_ok], [lp_ok] relate the two. *)

(** [GF[x][y]], 0 where the lookup would raise. *)
Definition gmul (x y : Z) : Z := unwrap 0 (GF_lookup x y).

(** The byte [L] feeds back: blk[15] ^ GF[blk[14]][LC[14]] ^ ... ^
    GF[blk[0]][LC[0]], accumulated in that order. *)
Definition L_feedback (b : list Z) : Z :=
  fold_left Z.lxor (rev (zip_with gmul (take 15 b) LC)) (b !!! 15%nat).

Definition L_step (b : list Z) : list Z := L_feedback b :: take 15 b.

(** The byte [Linv] restores: blk[0] ^ GF[blk[1]][LC[0]] ^ ... ^
    GF[blk[15]][LC[14]]. *)
Definition Linv_feedback (b : list Z) : Z :=
  fold_left Z.lxor (zip_with gmul (drop 1 b) LC) (b !!! 0%nat).

Definition Linv_step (b : list Z) : list Z := drop 1 b ++ [Linv_feedback b].

(** [PI[v]] and [PIinv[v]], 0 where the lookup would raise. *)
Definition PI_at (v : Z) : Z := unwrap 0 (getitem PI v).
Definition PIinv_at (v : Z) : Z := unwrap 0 (getitem PIinv v).

(** Substitution then 16 rounds of diffusion, and the reverse. *)
Definition LP (b : list Z) : list Z := Nat.iter 16 L_step (map PI_at b).
Definition LPinv (b : list Z) : list Z := map PIinv_at (Nat.iter 16 Linv_step b).

(** The effect of one pass of the inner loop of [L] and of [Linv] on
    the pair (blk, t), when no lookup raises. *)
Definition L_inner (i : Z) (st : list Z * Z) : list Z * Z :=
  let '(blk, t) := st in
  (<[Z.to_nat (i + 1) := blk !!! Z.to_nat i]> blk,
   Z.lxor t (gmul (blk !!! Z.to_nat i) (LC !!! Z.to_nat i))).

Definition Linv_inner (i : Z) (st : list Z * Z) : list Z * Z :=
  let '(blk, t) := st in
  (<[Z.to_nat i := blk !!! Z.to_nat (i + 1)]> blk,
   Z.lxor t (gmul (blk !!! Z.to_nat (i + 1)) (LC !!! Z.to_nat i))).

(** ** Round constants and key schedule, as the specification words them *)

(** The block that is all-zero except for its last byte, set to [r]. *)
Definition unit_block (r : Z) : list Z := <[15%nat := r]> (bytearray 16).

Definition bytesb (n : nat) (b : list Z) : bool :=
  (length b =? n)%nat && forallb byteb b.

Definition C_check (r : Z) : bool :=
  match getitem C (r - 1), L (unit_block r) 16 with
  | Ok c, Ok c' => bool_decide (c = c') && bytesb 16 c
  | _, _ => false
  end.

(** The constant of round [r], for [r] = 1..32. *)
Definition round_constant (r : Z) : list Z := unwrap [] (getitem C (r - 1)).

(** (left, right) := (LP(left XOR C[r]) XOR right, left) *)
Definition feistel_round (r : Z) (st : list Z * list Z) : list Z * list Z :=
  let '(l, r0) := st in
  (strxor (LP (strxor l (round_constant r))) r0, l).

(** The pair after rounds 1..n. *)
Fixpoint feistel (n : nat) (st : list Z * list Z) : list Z * list Z :=
  match n with
  | O => st
  | S m => feistel_round (Z.of_nat (S m)) (feistel m st)
  end.

(** The pair snapshotted after [8 * g] rounds, as two round keys. *)
Definition snapshot (st0 : list Z * list Z) (g : nat) : list (list Z) :=
  let st := feistel (8 * g) st0 in [fst st; snd st].

Definition derive_round_keys (master_key : list Z) : list (list Z) :=
  let st0 := (take 16 master_key, drop 16 master_key) in
  [fst st0; snd st0] ++ concat (map (snapshot st0) (seq 1 4)).

(** ** The block transform as a total function *)

(** The block after the first [n] rounds of [encrypt]. *)
Fixpoint encrypt_rounds (ks : list (list Z)) (n : nat) (blk : list Z)
  : list Z :=
  match n with
  | O => blk
  | S m => LP (strxor (ks !!! m) (encrypt_rounds ks m blk))
  end.

Definition encrypt_value (ks : list (list Z)) (blk : list Z) : list Z :=
  strxor (ks !!! 9%nat) (encrypt_rounds ks 9 blk).

(** The block after the first [n] rounds of [decrypt] (round keys 9,
    8, ..., 10 - n). *)
Fixpoint decrypt_rounds (ks : list (list Z)) (n : nat) (blk : list Z)
  : list Z :=
  match n with
  | O => blk
  | S m => LPinv (strxor (ks !!! (9 - m)%nat) (decrypt_rounds ks m blk))
  end.

Definition decrypt_value (ks : list (list Z)) (blk : list Z) : list Z :=
  strxor (ks !!! 0%nat) (decrypt_rounds ks 9 blk).

(** The ciphertext the code returns for the known-answer key and block. *)
Definition kat_cipher : list Z :=
  [0xb5; 0xbf; 0xe7; 0x52; 0x1b; 0x7a; 0xa2; 0x45;
   0xfc; 0xc0; 0x56; 0xf3; 0x5a; 0xa4; 0x6b; 0x66].

(** What the code returns when it decrypts the block
    7f679d90bebc24305a468d42b9d4edcd under the known-answer key. *)
Definition kat_decrypted_spec : list Z :=
  [0xc5; 0x4c; 0x9a; 0x4d; 0xff; 0x61; 0xc5; 0xf9;
   0x64; 0x12; 0x9a; 0x10; 0x87; 0x58; 0x9e; 0x69].

(** * The module over a store of objects

    The definitions above pass every sequence by value. To state what a
    call leaves untouched, the same functions are given here over a store
    of objects: a name holds a reference, [bytearray(x)], [bytes(x)], a
    list comprehension and [strxor] allocate a new object, and item
    assignment overwrites the object it is applied to.

    An object of ints does not record whether it is a bytes object, a
    bytearray or a list. The module assigns items only in [L] and [Linv],
    and the cipher hands these a bytearray or a list it has just made, so
    the TypeError of an item assignment to a bytes object is not
    modelled. [bytes(x)] is modelled as a copy also where Python may
    return [x] itself; the cipher applies it to the result of [strxor]
    only, an object made during the same call. *)

Definition loc : Type := nat.

Inductive obj : Type :=
| OInts (b : list Z)      (* a bytes object, a bytearray, a list of ints *)
| ORefs (r : list loc).   (* a list of objects *)

Abbreviation heap := (gmap loc obj).

(** A computation reads and updates the store; the store it leaves is kept
    also when it raises. *)
Definition M (A : Type) : Type := heap -> result A * heap.

Definition ret {A : Type} (a : A) : M A := fun h => (Ok a, h).

Definition lift {A : Type} (r : result A) : M A := fun h => (r, h).

Definition bindM {A B : Type} (m : M A) (k : A -> M B) : M B :=
  fun h =>
    match m h with
    | (Ok a, h') => k a h'
    | (Raise e, h') => (Raise e, h')
    end.

Notation "x <~ m ;; k" := (bindM m (fun x => k))
  (at level 100, m at next level, right associativity).

(** A new object, at a location not in use. *)
Definition alloc (o : obj) : M loc :=
  fun h => let l := fresh (dom h) in (Ok l, <[l := o]> h).

Definition ints_of (l : loc) : M (list Z) :=
  fun h =>
    match h !! l with
    | Some (OInts b) => (Ok b, h)
    | _ => (Raise TypeError, h)
    end.

Definition refs_of (l : loc) : M (list loc) :=
  fun h =>
    match h !! l with
    | Some (ORefs r) => (Ok r, h)
    | _ => (Raise TypeError, h)
    end.

Definition store_ints (l : loc) (b : list Z) : M unit :=
  fun h => (Ok tt, <[l := OInts b]> h).

(** [x[i]] where [x] holds ints, and where it holds objects. *)
Definition item (l : loc) (i : Z) : M Z :=
  b <~ ints_of l ;; lift (getitem b i).

Definition ref_item (l : loc) (i : Z) : M loc :=
  r <~ refs_of l ;; lift (getitem r i).

(** [x[i] = v]: the object at [l] is overwritten in place. *)
Definition set_item (l : loc) (i v : Z) : M unit :=
  b <~ ints_of l ;;
  b <~ lift (setitem b i v) ;;
  store_ints l b.

Fixpoint forM {S : Type} (xs : list Z) (body : Z -> S -> M S) (s : S)
  : M S :=
  match xs with
  | [] => ret s
  | x :: xs' => s' <~ body x s ;; forM xs' body s'
  end.

Fixpoint comprehensionM {A B : Type} (f : A -> M B) (l : list A)
  : M (list B) :=
  match l with
  | [] => ret []
  | v :: l' => b <~ f v ;; bs <~ comprehensionM f l' ;; ret (b :: bs)
  end.

(** [bytearray(x)] and [bytes(x)]: a copy of the contents of [x]. *)
Definition bytearray_of (l : loc) : M loc :=
  b <~ ints_of l ;; alloc (OInts b).

Definition bytes_of (l : loc) : M loc :=
  b <~ ints_of l ;; alloc (OInts b).

(** The objects the module-level names are bound to. *)
Record globals : Type := {
  g_LC : loc;
  g_PI : loc;
  g_PIinv : loc;
  g_GF : loc;
  g_C : loc
}.

Module Store.
Section with_globals.

Variable g : globals.

(** Modelled from the spec: [utils.strxor], see [strxor] above; the
    result is a new bytes object and the operands are only read. *)
Definition strxor (a b : loc) : M loc :=
  x <~ ints_of a ;;
  y <~ ints_of b ;;
  alloc (OInts (zip_with Z.lxor x y)).

Definition L_round (blk : loc) : M unit :=
  t <~ item blk 15 ;;
  t <~ forM (range 14 (-1) (-1))
         (fun i t =>
            v <~ item blk i ;;
            _ <~ set_item blk (i + 1) v ;;
            bi <~ item blk i ;;
            row <~ ref_item (g_GF g) bi ;;
            lc <~ item (g_LC g) i ;;
            gv <~ item row lc ;;
            ret (Z.lxor t gv))
         t ;;
  set_item blk 0 t.

Definition L (blk : loc) (rounds : Z) : M loc :=
  _ <~ forM (range 0 rounds 1) (fun _ _ => L_round blk) tt ;;
  ret blk.

Definition Linv_round (blk : loc) : M unit :=
  t <~ item blk 0 ;;
  t <~ forM (range 0 15 1)
         (fun i t =>
            v <~ item blk (i + 1) ;;
            _ <~ set_item blk i v ;;
            bi <~ item blk i ;;
            row <~ ref_item (g_GF g) bi ;;
            lc <~ item (g_LC g) i ;;
            gv <~ item row lc ;;
            ret (Z.lxor t gv))
         t ;;
  set_item blk 15 t.

Definition Linv (blk : loc) : M loc :=
  _ <~ forM (range 0 16 1) (fun _ _ => Linv_round blk) tt ;;
  ret blk.

Definition lp (blk : loc) : M loc :=
  b <~ ints_of blk ;;
  vs <~ comprehensionM (fun v => item (g_PI g) v) b ;;
  new <~ alloc (OInts vs) ;;
  L new L_rounds_default.

(** An instance: its attribute [ks] refers to the list of round keys. *)
Record t : Type := { ks : loc }.

Definition encrypt (self : t) (blk : loc) : M loc :=
  blk <~ bytearray_of blk ;;
  blk <~ forM (range 0 9 1)
           (fun i blk =>
              k <~ ref_item (ks self) i ;;
              x <~ strxor k blk ;;
              x <~ bytearray_of x ;;
              lp x)
           blk ;;
  k <~ ref_item (ks self) 9 ;;
  x <~ strxor k blk ;;
  bytes_of x.

Definition decrypt (self : t) (blk : loc) : M loc :=
  blk <~ bytearray_of blk ;;
  blk <~ forM (range 9 0 (-1))
           (fun i blk =>
              k <~ ref_item (ks self) i ;;
              x <~ strxor k blk ;;
              x <~ bytearray_of x ;;
              x <~ Linv x ;;
              b <~ ints_of x ;;
              vs <~ comprehensionM (fun v => item (g_PIinv g) v) b ;;
              alloc (OInts vs))
           blk ;;
  k <~ ref_item (ks self) 0 ;;
  x <~ strxor k blk ;;
  bytes_of x.

End with_globals.
End Store.

(** ** Reading the store *)

Definition ints_at (h : heap) (l : loc) : option (list Z) :=
  match h !! l with
  | Some (OInts b) => Some b
  | _ => None
  end.

(** The contents of a list of byte strings. *)
Definition table_at (h : heap) (l : loc) : option (list (list Z)) :=
  match h !! l with
  | Some (ORefs r) => mapM (ints_at h) r
  | _ => None
  end.

(** The store after the import of the module: the module-level names are
    bound to objects holding the tables. *)
Definition module_loaded (g : globals) (h : heap) : Prop :=
  ints_at h (g_LC g) = Some LC /\
  ints_at h (g_PI g) = Some PI /\
  ints_at h (g_PIinv g) = Some PIinv /\
  table_at h (g_GF g) = Some GF /\
  table_at h (g_C g) = Some C.

(** Every object of [h] is in [h'] with the same contents. *)
Definition unchanged (h h' : heap) : Prop :=
  forall (l : loc) (o : obj), h !! l = Some o -> h' !! l = Some o.

(** [frames h0 m Q]: run from a store in which the objects of [h0] are
    unchanged, [m] leaves them unchanged, whether it returns or raises,
    and a value it returns satisfies [Q]. *)
Definition frames {A : Type} (h0 : heap) (m : M A) (Q : A -> Prop) : Prop :=
  forall h, h0 ⊆ h ->
    h0 ⊆ snd (m h) /\ forall a, fst (m h) = Ok a -> Q a.

(** What a call must leave in place: the objects of [h], and with them the
    loaded module, the round keys [ks] of the instance and the contents
    [b] of the input block. *)
Definition preserved (g : globals) (self : Store.t) (blk : loc)
           (ks : list (list Z)) (b : list Z) (h h' : heap) : Prop :=
  unchanged h h' /\
  module_loaded g h' /\
  table_at h' (Store.ks self) = Some ks /\
  ints_at h' blk = Some b.

(** ** A concrete store *)

(** A list of byte strings, each an object of its own. *)
Definition alloc_table (rows : list (list Z)) : M loc :=
  ls <~ comprehensionM (fun r => alloc (OInts r)) rows ;;
  alloc (ORefs ls).

(** The objects the import of the module creates. *)
Definition load_module : M globals :=
  lc <~ alloc (OInts LC) ;;
  pi <~ alloc (OInts PI) ;;
  piinv <~ alloc (OInts PIinv) ;;
  gf <~ alloc_table GF ;;
  c <~ alloc_table C ;;
  ret {| g_LC := lc; g_PI := pi; g_PIinv := piinv; g_GF := gf; g_C := c |}.

(** The round keys of the known-answer key. *)
Definition kat_round_keys : list (list Z) :=
  Eval vm_compute in
    match GOST3412Kuznechik.init kat_key with
    | Ok self => GOST3412Kuznechik.ks self
    | Raise _ => []
    end.

(** The module, an instance for the known-answer key and the
    known-answer block, in an otherwise empty store. *)
Definition kat_setup : M (globals * Store.t * loc) :=
  g <~ load_module ;;
  ks <~ alloc_table kat_round_keys ;;
  blk <~ alloc (OInts kat_plain) ;;
  ret (g, {| Store.ks := ks |}, blk).

Definition kat_world : result (globals * Store.t * loc) * heap :=
  Eval vm_compute in kat_setup ∅.

Definition kat_store : heap := snd kat_world.

Definition kat_globals : globals :=
  match fst kat_world with
  | Ok (g, _, _) => g
  | Raise _ => {| g_LC := O; g_PI := O; g_PIinv := O; g_GF := O; g_C := O |}
  end.

Definition kat_instance : Store.t :=
  match fst kat_world with
  | Ok (_, self, _) => self
  | Raise _ => {| Store.ks := O |}
  end.

Definition kat_block : loc :=
  match fst kat_world with
  | Ok (_, _, blk) => blk
  | Raise _ => O
  end.

(** * Further properties: definitions *)

(** The update of [a] in one pass of the loop of [gf]: multiplication by
    x modulo x^8 + x^7 + x^6 + x + 1. *)
Definition gf_shift (a : Z) : Z :=
  if Z.land a 0x80 =? 0 then Z.shiftl a 1
  else Z.lxor (Z.shiftl a 1) 0x1C3.

Definition gf_shift_check (a a' : Z) : bool :=
  byteb (gf_shift a) &&
  (gf_shift (Z.lxor a a') =? Z.lxor (gf_shift a) (gf_shift a')).

(** The bytes with one bit set. *)
Definition byte_basis : list Z := [1; 2; 4; 8; 16; 32; 64; 128].

(** The one-bit parts of a byte. *)
Definition byte_bits (x : Z) : list Z := map (Z.land x) byte_basis.

Definition byte_bits_check (x : Z) : bool :=
  (fold_right Z.lxor 0 (byte_bits x) =? x) &&
  forallb (fun p => (snd p =? 0) || (snd p =? fst p))
          (zip byte_basis (byte_bits x)).

Definition gf_assoc_check (a b c : Z) : bool :=
  gf_value (gf_value a b) c =? gf_value a (gf_value b c).

(** A byte [b] with [gf(a, b) == 1], searched in [range(256)]. *)
Definition gf_inverse (a : Z) : Z :=
  match find (fun b => gf_value a b =? 1) (range 0 256 1) with
  | Some b => b
  | None => 0
  end.

Definition gf_inverse_check (a : Z) : bool :=
  (a =? 0) || (byteb (gf_inverse a) && (gf_value a (gf_inverse a) =? 1)).

(** What one round of [decrypt] applies to the XOR-ed block:
    [[PIinv[v] for v in Linv(blk)]]. *)
Definition lp_inverse (blk : list Z) : result (list Z) :=
  blk <- Linv blk ;;
  comprehension (fun v => getitem PIinv v) blk.

(** ** The 64-bit cipher class: key preparation *)

(** [l[a:b]] for 0 <= a <= b. *)
Definition slice {A : Type} (l : list A) (a b : Z) : list A :=
  take (Z.to_nat (b - a)) (drop (Z.to_nat a) l).

Module GOST3412Magma.

Definition blocksize : Z := 8.

Record t : Type := { key : list Z; sbox : string }.

(** [__init__]: each of the eight 4-byte groups of the key is reversed.
    (encrypt and decrypt hand the prepared key to the gost28147 module,
    which is not part of these sources.) *)
Definition init (key : list Z) : t :=
  {| key := concat (map (fun i => rev (slice key (i * 4) (i * 4 + 4)))
                        (range 0 8 1));
     sbox := "id-tc26-gost-28147-param-Z" |}.

End GOST3412Magma.

(** * Properties *)

(** ** The error monad *)

Lemma bind_Ok_inv {A B : Type} (m : result A) (k : A -> result B) (b : B) :
  bind m k = Ok b -> exists a, m = Ok a /\ k a = Ok b.
Proof. destruct m as [a|e]; simpl; [eauto | discriminate]. Qed.

Lemma bind_assoc {A B D : Type} (m : result A) (k : A -> result B)
      (h : B -> result D) :
  bind (bind m k) h = bind m (fun a => bind (k a) h).
Proof. now destruct m. Qed.

Lemma result_eqb_eq (m : result Z) (v : Z) :
  result_eqb m (Ok v) = true -> m = Ok v.
Proof.
  destruct m as [a|e]; simpl; [|discriminate].
  intros H%Z.eqb_eq. now subst.
Qed.

(** ** Bytes *)

Lemma byteb_byte (v : Z) : byteb v = true -> byte v.
Proof. unfold byteb, byte. lia. Qed.

Lemma byte_lxor (a b : Z) : byte a -> byte b -> byte (Z.lxor a b).
Proof.
  unfold byte. intros [Ha0 Ha] [Hb0 Hb]. split.
  - now apply Z.lxor_nonneg.
  - destruct (Z.eq_dec (Z.lxor a b) 0) as [->|Hne]; [lia|].
    assert (0 <= Z.lxor a b) by now apply Z.lxor_nonneg.
    change 256 with (2 ^ 8). apply Z.log2_lt_pow2; [lia|].
    pose proof (Z.log2_lxor a b Ha0 Hb0) as Hl.
    assert (Z.log2 a < 8).
    { destruct (Z.eq_dec a 0) as [->|]; [simpl; lia|].
      apply Z.log2_lt_pow2; simpl; lia. }
    assert (Z.log2 b < 8).
    { destruct (Z.eq_dec b 0) as [->|]; [simpl; lia|].
      apply Z.log2_lt_pow2; simpl; lia. }
    lia.
Qed.

(** ** Ranges *)

Lemma range_up (a b : Z) :
  range a b 1 = map (fun k => a + Z.of_nat k) (seq 0 (Z.to_nat (b - a))).
Proof.
  unfold range. simpl (0 <? 1).
  cbv iota. rewrite Z.div_1_r.
  replace (b - a + 1 - 1) with (b - a) by lia.
  apply map_ext. intros k. lia.
Qed.

Lemma in_range_up (a b x : Z) : a <= x < b -> In x (range a b 1).
Proof.
  intros Hx. rewrite range_up. apply in_map_iff.
  exists (Z.to_nat (x - a)). split; [lia|].
  apply in_seq. lia.
Qed.

Lemma range_up_in (a b x : Z) : In x (range a b 1) -> a <= x < b.
Proof.
  rewrite range_up. intros (k & <- & Hk%in_seq)%in_map_iff. lia.
Qed.

Lemma range_down (a b : Z) :
  range a b (-1) = map (fun k => a - Z.of_nat k) (seq 0 (Z.to_nat (a - b))).
Proof.
  unfold range. simpl (0 <? -1). cbv iota.
  change (- -1) with 1. rewrite Z.div_1_r.
  replace (a - b - -1 - 1) with (a - b) by lia.
  apply map_ext. intros k. lia.
Qed.

Lemma range_down_in (a b x : Z) : In x (range a b (-1)) -> b < x <= a.
Proof.
  rewrite range_down. intros (k & <- & Hk%in_seq)%in_map_iff. lia.
Qed.

Lemma range_up_lookup (a b : Z) (k : nat) (x : Z) :
  range a b 1 !! k = Some x ->
  x = a + Z.of_nat k /\ (k < Z.to_nat (b - a))%nat.
Proof.
  rewrite range_up, list_lookup_fmap.
  destruct (seq 0 (Z.to_nat (b - a)) !! k) as [n|] eqn:E; [|discriminate].
  apply lookup_seq in E as [-> Hk]. simpl. intros [= <-]. auto.
Qed.

Lemma range_down_lookup (a b : Z) (k : nat) (x : Z) :
  range a b (-1) !! k = Some x ->
  x = a - Z.of_nat k /\ (k < Z.to_nat (a - b))%nat.
Proof.
  rewrite range_down, list_lookup_fmap.
  destruct (seq 0 (Z.to_nat (a - b)) !! k) as [n|] eqn:E; [|discriminate].
  apply lookup_seq in E as [-> Hk]. simpl. intros [= <-]. auto.
Qed.

(** A boolean property checked on [range(256)] holds of every byte. *)
Lemma byte_forallb (P : Z -> bool) :
  forallb P (range 0 256 1) = true -> forall x, byte x -> P x = true.
Proof.
  intros H x Hx. rewrite forallb_forall in H.
  apply H, in_range_up. exact Hx.
Qed.

(** ** Sequence primitives on in-range indices *)

Lemma getitem_lookup {A : Type} (l : list A) (i : Z) (x : A) :
  0 <= i -> l !! Z.to_nat i = Some x -> getitem l i = Ok x.
Proof.
  intros Hi Hx. unfold getitem.
  destruct (i <? 0) eqn:E; [lia|]. rewrite E. now rewrite Hx.
Qed.

Lemma getitem_total {A : Type} `{Inhabited A} (l : list A) (i : Z) :
  0 <= i < Z.of_nat (length l) -> getitem l i = Ok (l !!! Z.to_nat i).
Proof.
  intros Hi. apply getitem_lookup; [lia|].
  apply list_lookup_lookup_total_lt. lia.
Qed.

Lemma setitem_insert {A : Type} (l : list A) (i : Z) (v : A) :
  0 <= i < Z.of_nat (length l) ->
  setitem l i v = Ok (<[Z.to_nat i := v]> l).
Proof.
  intros Hi. unfold setitem.
  destruct (i <? 0) eqn:E; [lia|]. rewrite E.
  destruct (i <? Z.of_nat (length l)) eqn:E'; [reflexivity | lia].
Qed.

Lemma getitem_Ok_inv {A : Type} (l : list A) (i : Z) (x : A) :
  0 <= i -> getitem l i = Ok x -> (Z.to_nat i < length l)%nat.
Proof.
  intros Hi. unfold getitem.
  destruct (i <? 0) eqn:E; [lia|]. rewrite E.
  destruct (l !! Z.to_nat i) eqn:El; [|discriminate].
  intros _. now apply lookup_lt_Some in El.
Qed.

Lemma getitem_Ok_lookup {A : Type} (l : list A) (i : Z) (x : A) :
  0 <= i -> getitem l i = Ok x -> l !! Z.to_nat i = Some x.
Proof.
  intros Hi. unfold getitem.
  destruct (i <? 0) eqn:E; [lia|]. rewrite E.
  destruct (l !! Z.to_nat i); [now intros [= ->] | discriminate].
Qed.

Lemma Forall_byte_lookup_total (b : list Z) (i : nat) :
  Forall byte b -> (i < length b)%nat -> byte (b !!! i).
Proof.
  intros Hb Hi. apply (Forall_lookup_1 _ _ i (b !!! i) Hb).
  now apply list_lookup_lookup_total_lt.
Qed.

(** ** Loops *)

(** A loop whose body, under an invariant, never raises computes the
    left fold of the body's value. *)
Lemma for_fold {S : Type} (Inv : S -> Prop) (f : Z -> S -> S)
      (body : Z -> S -> result S) (xs : list Z) :
  (forall x s, In x xs -> Inv s -> body x s = Ok (f x s) /\ Inv (f x s)) ->
  forall s, Inv s ->
    for_ xs body s = Ok (fold_left (fun s x => f x s) xs s) /\
    Inv (fold_left (fun s x => f x s) xs s).
Proof.
  induction xs as [|x xs IH]; intros Hbody s Hs; simpl; [auto|].
  destruct (Hbody x s (or_introl eq_refl) Hs) as [-> Hs']. simpl.
  apply IH; [|exact Hs'].
  intros y s0 Hy. apply Hbody. now right.
Qed.

(** Loop invariant indexed by the number of iterations done. *)
Lemma for_invariant {S : Type} (P : nat -> S -> Prop)
      (body : Z -> S -> result S) (xs : list Z) :
  (forall k x s, xs !! k = Some x -> P k s ->
                 exists s', body x s = Ok s' /\ P (Datatypes.S k) s') ->
  forall s, P O s -> exists s', for_ xs body s = Ok s' /\ P (length xs) s'.
Proof.
  revert P. induction xs as [|x xs IH]; intros P Hbody s Hs; simpl.
  - eauto.
  - destruct (Hbody O x s eq_refl Hs) as (s1 & -> & Hs1). simpl.
    apply (IH (fun k => P (Datatypes.S k))); [|exact Hs1].
    intros k y s0 Hk. now apply (Hbody (Datatypes.S k)).
Qed.

Lemma comprehension_map {A B : Type} (f : A -> result B) (g : A -> B)
      (l : list A) :
  (forall v, In v l -> f v = Ok (g v)) -> comprehension f l = Ok (map g l).
Proof.
  induction l as [|v l IH]; intros H; simpl; [reflexivity|].
  rewrite (H v (or_introl eq_refl)). simpl.
  rewrite IH; [reflexivity|]. intros w Hw. apply H. now right.
Qed.

Lemma for_const_iter {S : Type} (f : S -> S) (body : S -> result S)
      (Inv : S -> Prop) (xs : list Z) :
  (forall s, Inv s -> body s = Ok (f s) /\ Inv (f s)) ->
  forall s, Inv s ->
    for_ xs (fun _ s => body s) s = Ok (Nat.iter (length xs) f s) /\
    Inv (Nat.iter (length xs) f s).
Proof.
  intros Hbody. induction xs as [|x xs IH]; intros s Hs; [simpl; auto|].
  cbn [for_ length]. rewrite Nat.iter_succ_r.
  destruct (Hbody s Hs) as [-> Hs']. simpl. now apply IH.
Qed.

(** A loop over a range cut in two is the two loops in sequence. *)
Lemma for_app {S : Type} (xs ys : list Z) (body : Z -> S -> result S) (s : S) :
  for_ (xs ++ ys) body s = (s' <- for_ xs body s ;; for_ ys body s').
Proof.
  revert s. induction xs as [|x xs IH]; intros s; simpl; [reflexivity|].
  destruct (body x s) as [s1|e]; simpl; [apply IH | reflexivity].
Qed.


(** ** Substitution box *)

Lemma PI_check_all : forallb PI_check (range 0 256 1) = true.
Proof. vm_compute. reflexivity. Qed.

(** C5: the import-time loop fills PIinv without error, PI maps bytes to
    bytes, and PIinv is its two-sided inverse on 0..255:
    PIinv[PI[x]] == x and PI[PIinv[x]] == x. *)
Theorem PI_PIinv_inverse :
  PIinv_init = Ok PIinv /\
  forall x, byte x ->
    exists y z,
      getitem PI x = Ok y /\ byte y /\ getitem PIinv y = Ok x /\
      getitem PIinv x = Ok z /\ byte z /\ getitem PI z = Ok x.
Proof.
  split; [vm_compute; reflexivity|].
  intros x Hx. pose proof (byte_forallb _ PI_check_all x Hx) as Hc.
  unfold PI_check in Hc.
  destruct (getitem PI x) as [y|]; [|discriminate].
  destruct (getitem PIinv x) as [z|]; [|discriminate].
  apply andb_prop in Hc as [Hc H4]. apply andb_prop in Hc as [Hc H3].
  apply andb_prop in Hc as [H1 H2].
  exists y, z. repeat split;
    auto using result_eqb_eq; now apply byteb_byte.
Qed.

Lemma PI_PIinv_inverse_witness :
  byte 7 /\
  exists y z,
    getitem PI 7 = Ok y /\ byte y /\ getitem PIinv y = Ok 7 /\
    getitem PIinv 7 = Ok z /\ byte z /\ getitem PI z = Ok 7.
Proof.
  split; [unfold byte; lia|].
  apply (proj2 PI_PIinv_inverse 7). unfold byte; lia.
Defined.


(** ** Field multiplier *)

Lemma GF_row_check_all : forallb GF_row_check (range 0 256 1) = true.
Proof. vm_compute. reflexivity. Qed.

Lemma range_up_lookup_Some (a b x : Z) :
  a <= x < b -> range a b 1 !! Z.to_nat (x - a) = Some x.
Proof.
  intros Hx. rewrite range_up, list_lookup_fmap.
  rewrite lookup_seq_lt by lia. simpl. f_equal. lia.
Qed.

(** What the row check says of one row. *)
Lemma GF_row_spec (a : Z) :
  byte a ->
  exists row,
    getitem GF a = Ok row /\ length row = 256%nat /\
    forall b, byte b ->
      gf a b = Ok (gf_value a b) /\ byte (gf_value a b) /\
      gf b a = Ok (gf_value a b) /\
      row !! Z.to_nat b = Some (gf_value a b).
Proof.
  intros Ha. pose proof (byte_forallb _ GF_row_check_all a Ha) as H.
  unfold GF_row_check in H.
  destruct (getitem GF a) as [row|]; [|discriminate].
  apply andb_prop in H as [Hlen Hall]. apply Nat.eqb_eq in Hlen.
  exists row. split; [reflexivity|]. split; [exact Hlen|].
  intros b Hb. rewrite forallb_forall in Hall.
  destruct (lookup_lt_is_Some_2 row (Z.to_nat b)) as [v Hv];
    [unfold byte in Hb; lia|].
  assert (In (b, v) (zip (range 0 256 1) row)) as Hin.
  { apply list_elem_of_In, (list_elem_of_lookup_2 _ (Z.to_nat b)).
    rewrite lookup_zip_with, Hv.
    replace (Z.to_nat b) with (Z.to_nat (b - 0)) by lia.
    now rewrite (range_up_lookup_Some 0 256 b Hb). }
  specialize (Hall _ Hin). cbn [fst snd] in Hall.
  unfold gf_value. destruct (gf a b) as [c|]; [|discriminate].
  apply andb_prop in Hall as [Hall Hvc]. apply andb_prop in Hall as [Hc Hba].
  apply Z.eqb_eq in Hvc. subst v. cbn [unwrap].
  auto using byteb_byte, result_eqb_eq.
Qed.

Lemma gf_check_true (a b : Z) : byte a -> byte b -> gf_check a b = true.
Proof.
  intros Ha Hb. destruct (GF_row_spec a Ha) as (row & Hrow & _ & Hspec).
  destruct (Hspec b Hb) as (Hab & Hc & Hba & Hv).
  unfold gf_check, GF_lookup. rewrite Hab, Hba, Hrow. cbn [bind].
  rewrite (getitem_lookup row b _ (proj1 Hb) Hv). simpl.
  rewrite Z.eqb_refl, !andb_true_r.
  unfold byte in Hc. unfold byteb. lia.
Qed.

Lemma gf_zero_r (a : Z) : gf a 0 = Ok 0.
Proof. reflexivity. Qed.

Lemma gf_one_r (a : Z) : gf a 1 = Ok a.
Proof. unfold gf. simpl. now rewrite Z.lxor_0_l. Qed.

(** On bytes the multiplier terminates and returns a byte. *)
Lemma gf_byte (a b : Z) :
  byte a -> byte b -> exists c, gf a b = Ok c /\ byte c.
Proof.
  intros Ha Hb. destruct (GF_row_spec a Ha) as (row & _ & _ & Hspec).
  destruct (Hspec b Hb) as (Hab & Hc & _). eauto.
Qed.

(** C9: on bytes, gf is commutative, gf(a, 0) == 0 and gf(a, 1) == a. *)
Theorem gf_field_laws (a b : Z) :
  byte a -> byte b ->
  gf a b = gf b a /\ is_ok (gf a b) /\ gf a 0 = Ok 0 /\ gf a 1 = Ok a.
Proof.
  intros Ha Hb. destruct (GF_row_spec a Ha) as (row & _ & _ & Hspec).
  destruct (Hspec b Hb) as (Hab & _ & Hba & _).
  rewrite Hab, Hba. repeat split; auto using gf_zero_r, gf_one_r.
Qed.

Lemma gf_field_laws_witness :
  byte 87 /\ byte 131 /\
  gf 87 131 = gf 131 87 /\ is_ok (gf 87 131) /\ gf 87 0 = Ok 0 /\ gf 87 1 = Ok 87.
Proof.
  split; [unfold byte; lia|]. split; [unfold byte; lia|].
  apply (gf_field_laws 87 131); unfold byte; lia.
Defined.

(** ** Multiplication table *)

(** The inner loop of the import fills row [x] and leaves the other rows. *)
Lemma GF_init_row (x : nat) (T : list (list Z)) :
  (x < 256)%nat -> length T = 256%nat ->
  (exists row, T !! x = Some row /\ length row = 256%nat) ->
  exists T',
    for_ (range 0 256 1)
         (fun y GF =>
            v <- gf (Z.of_nat x) y ;;
            row <- getitem GF (Z.of_nat x) ;;
            row <- ba_setitem row y v ;;
            setitem GF (Z.of_nat x) row)
         T = Ok T' /\
    length T' = 256%nat /\
    (forall i, i <> x -> T' !! i = T !! i) /\
    T' !! x = GF !! x.
Proof.
  intros Hx HT Hrow.
  destruct (GF_row_spec (Z.of_nat x)) as (rowG & HrowG & HlenG & Hspec);
    [unfold byte; lia|].
  apply getitem_Ok_lookup in HrowG; [|lia]. rewrite Nat2Z.id in HrowG.
  match goal with
  | |- context [for_ ?xs ?body T] =>
      destruct (for_invariant
                  (fun k T' =>
                     length T' = 256%nat /\
                     (forall i, i <> x -> T' !! i = T !! i) /\
                     exists row, T' !! x = Some row /\
                                 length row = 256%nat /\
                                 forall j, (j < k)%nat ->
                                           row !! j = rowG !! j)
                  body xs) with (s := T)
        as (T' & HT' & Hlen' & Hother & row & Hrow' & Hlrow & Hent)
  end.
  - intros k y T1 [-> Hk]%range_up_lookup (Hl1 & Ho1 & row & Hr1 & Hlr & He).
    simpl in Hk. change (0 + Z.of_nat k) with (Z.of_nat k).
    destruct (Hspec (Z.of_nat k)) as (Hgf & Hbyte & _ & Hg);
      [unfold byte; lia|].
    rewrite Nat2Z.id in Hg. rewrite Hgf. cbn [bind].
    rewrite (getitem_lookup T1 (Z.of_nat x) row) by (rewrite ?Nat2Z.id; auto; lia).
    cbn [bind]. unfold ba_setitem.
    replace ((0 <=? gf_value (Z.of_nat x) (Z.of_nat k))
             && (gf_value (Z.of_nat x) (Z.of_nat k) <? 256)) with true
      by (unfold byte in Hbyte; lia).
    rewrite setitem_insert by lia. cbn [bind].
    rewrite setitem_insert by lia. rewrite !Nat2Z.id.
    eexists. split; [reflexivity|]. split; [now rewrite length_insert|].
    split.
    + intros i Hi. rewrite list_lookup_insert_ne by auto. now apply Ho1.
    + eexists. rewrite list_lookup_insert_eq by lia.
      split; [reflexivity|]. split; [now rewrite length_insert|].
      intros j Hj. destruct (decide (j = k)) as [->|Hne].
      * rewrite list_lookup_insert_eq by lia. now rewrite Hg.
      * rewrite list_lookup_insert_ne by auto. apply He. lia.
  - split; [exact HT|]. split; [auto|].
    destruct Hrow as (row & Hr & Hl). exists row.
    split; [exact Hr|]. split; [exact Hl | intros j Hj; lia].
  - exists T'. split; [exact HT'|]. split; [exact Hlen'|].
    split; [exact Hother|]. rewrite Hrow', HrowG. f_equal.
    apply list_eq. intros j.
    destruct (decide (j < 256)%nat) as [Hj|Hj].
    + apply Hent. change (length (range 0 256 1)) with 256%nat. exact Hj.
    + rewrite !lookup_ge_None_2 by lia. reflexivity.
Qed.

Lemma lookup_repeat {A : Type} (x : A) (n i : nat) :
  (i < n)%nat -> repeat x n !! i = Some x.
Proof.
  revert i. induction n as [|n IH]; intros i Hi; [lia|].
  destruct i as [|i]; simpl; [reflexivity | apply IH; lia].
Qed.

(** The import-time loops build exactly the table [GF]. *)
Lemma GF_init_ok : GF_init = Ok GF.
Proof.
  unfold GF_init.
  match goal with
  | |- for_ ?xs ?body ?T0 = _ =>
      destruct (for_invariant
                  (fun k T =>
                     length T = 256%nat /\
                     (forall i, (i < k)%nat -> T !! i = GF !! i) /\
                     (forall i, (k <= i < 256)%nat ->
                                exists row, T !! i = Some row /\
                                            length row = 256%nat))
                  body xs) with (s := T0)
        as (T & -> & Hlen & Hrows & _)
  end.
  - intros k x T [-> Hk]%range_up_lookup (Hl & Hdone & Htodo).
    simpl in Hk. change (0 + Z.of_nat k) with (Z.of_nat k).
    destruct (GF_init_row k T Hk Hl (Htodo k ltac:(lia)))
      as (T' & HT' & Hl' & Hother & Hk').
    exists T'. split; [exact HT'|]. split; [exact Hl'|]. split.
    + intros i Hi. destruct (decide (i = k)) as [->|Hne]; [exact Hk'|].
      rewrite Hother by auto. apply Hdone. lia.
    + intros i Hi. rewrite Hother by lia. apply Htodo. lia.
  - split; [reflexivity|]. split; [intros i Hi; lia|].
    intros i Hi. exists (bytearray 256). split; [|reflexivity].
    apply lookup_repeat. lia.
  - f_equal. apply list_eq. intros i.
    destruct (decide (i < 256)%nat) as [Hi|Hi].
    + apply Hrows. change (length (range 0 256 1)) with 256%nat. exact Hi.
    + rewrite (lookup_ge_None_2 T) by lia.
      rewrite (lookup_ge_None_2 GF); [reflexivity|].
      change (length GF) with 256%nat. lia.
Qed.

(** C8: the import-time loops fill GF without error, and every entry
    GF[x][y] with x, y in 0..255 equals gf(x, y). *)
Theorem GF_table_agrees :
  GF_init = Ok GF /\
  forall x y, byte x -> byte y ->
    GF_lookup x y = gf x y /\ is_ok (gf x y).
Proof.
  split; [exact GF_init_ok|].
  intros x y Hx Hy. pose proof (gf_check_true x y Hx Hy) as H.
  unfold gf_check in H. destruct (gf x y) as [c|]; [|discriminate].
  apply andb_prop in H as [_ H]. apply result_eqb_eq in H.
  split; [exact H | exact I].
Qed.

Lemma GF_table_agrees_witness :
  byte 87 /\ byte 131 /\ GF_lookup 87 131 = gf 87 131 /\ is_ok (gf 87 131).
Proof.
  split; [unfold byte; lia|]. split; [unfold byte; lia|].
  apply (proj2 GF_table_agrees 87 131); unfold byte; lia.
Defined.

(** ** Linear transform *)

Lemma gmul_byte (x y : Z) :
  byte x -> byte y -> GF_lookup x y = Ok (gmul x y) /\ byte (gmul x y).
Proof.
  intros Hx Hy. pose proof (gf_check_true x y Hx Hy) as H.
  unfold gf_check in H. destruct (gf x y) as [c|]; [|discriminate].
  apply andb_prop in H as [H Hl]. apply andb_prop in H as [Hb _].
  apply result_eqb_eq in Hl. apply byteb_byte in Hb.
  unfold gmul. rewrite Hl. auto.
Qed.

Lemma LC_byte (i : Z) : 0 <= i < 16 -> byte (LC !!! Z.to_nat i).
Proof.
  intros Hi. apply Forall_byte_lookup_total; [|simpl; lia].
  unfold LC, byte. repeat constructor; lia.
Qed.

Lemma L_round_ok (b : list Z) :
  bytes 16 b -> L_round b = Ok (L_step b).
Proof.
  intros [Hlen Hb]. unfold L_round.
  rewrite (getitem_total b 15) by lia. cbn [bind].
  match goal with
  | |- context [for_ ?xs ?body ?s0] =>
      assert (for_ xs body s0 = Ok (fold_left (fun st x => L_inner x st) xs s0))
        as ->
  end.
  { apply (for_fold (fun st => bytes 16 (fst st)) L_inner); [|split; assumption].
    intros i [blk t] Hi%range_down_in [Hl HB]. simpl in Hl, HB.
    assert (byte (blk !!! Z.to_nat i)) as Hbi
        by (apply Forall_byte_lookup_total; [assumption | lia]).
    rewrite (getitem_total blk i) by lia. cbn [bind].
    rewrite setitem_insert by lia. cbn [bind].
    rewrite getitem_total by (rewrite length_insert; lia).
    rewrite list_lookup_total_insert_ne by lia. cbn [bind].
    rewrite (getitem_total LC i) by (simpl; lia).
    pose proof (LC_byte i ltac:(lia)) as Hlc.
    destruct (gmul_byte _ _ Hbi Hlc) as [Hg _]. unfold GF_lookup in Hg.
    destruct (getitem GF (blk !!! Z.to_nat i)) as [row|]; [|discriminate].
    cbn [bind] in *. rewrite Hg. cbn [bind].
    split; [reflexivity|].
    split; simpl; [rewrite length_insert; lia|].
    now apply Forall_insert. }
  do 17 (destruct b as [|? b]; try discriminate Hlen).
  lazy -[gmul Z.lxor]. reflexivity.
Qed.

Lemma Linv_round_ok (b : list Z) :
  bytes 16 b -> Linv_round b = Ok (Linv_step b).
Proof.
  intros [Hlen Hb]. unfold Linv_round.
  rewrite (getitem_total b 0) by lia. cbn [bind].
  match goal with
  | |- context [for_ ?xs ?body ?s0] =>
      assert (for_ xs body s0
              = Ok (fold_left (fun st x => Linv_inner x st) xs s0)) as ->
  end.
  { apply (for_fold (fun st => bytes 16 (fst st)) Linv_inner);
      [|split; assumption].
    intros i [blk t] Hi%range_up_in [Hl HB]. simpl in Hl, HB.
    assert (byte (blk !!! Z.to_nat (i + 1))) as Hbi
        by (apply Forall_byte_lookup_total; [assumption | lia]).
    rewrite (getitem_total blk (i + 1)) by lia. cbn [bind].
    rewrite setitem_insert by lia. cbn [bind].
    rewrite getitem_total by (rewrite length_insert; lia).
    rewrite list_lookup_total_insert_eq by lia. cbn [bind].
    rewrite (getitem_total LC i) by (simpl; lia).
    pose proof (LC_byte i ltac:(lia)) as Hlc.
    destruct (gmul_byte _ _ Hbi Hlc) as [Hg _]. unfold GF_lookup in Hg.
    destruct (getitem GF (blk !!! Z.to_nat (i + 1))) as [row|];
      [|discriminate].
    cbn [bind] in *. rewrite Hg. cbn [bind].
    split; [reflexivity|].
    split; simpl; [rewrite length_insert; lia|].
    now apply Forall_insert. }
  do 17 (destruct b as [|? b]; try discriminate Hlen).
  lazy -[gmul Z.lxor]. reflexivity.
Qed.

(** XOR-ing a list of bytes into an accumulator and then XOR-ing the
    same bytes in the reverse order gives the accumulator back. *)
Lemma fold_lxor_cancel (g : list Z) (x : Z) :
  fold_left Z.lxor g (fold_left Z.lxor (rev g) x) = x.
Proof.
  revert x. induction g as [|a g IH]; intros x; simpl; [reflexivity|].
  rewrite fold_left_app. simpl.
  rewrite Z.lxor_assoc, Z.lxor_nilpotent, Z.lxor_0_r. apply IH.
Qed.

Lemma fold_lxor_byte (g : list Z) (x : Z) :
  byte x -> Forall byte g -> byte (fold_left Z.lxor g x).
Proof.
  intros Hx Hg. revert x Hx.
  induction Hg as [|a g Ha _ IH]; intros x Hx; simpl; [exact Hx|].
  apply IH. now apply byte_lxor.
Qed.

Lemma zip_gmul_byte (l1 l2 : list Z) :
  Forall byte l1 -> Forall byte l2 -> Forall byte (zip_with gmul l1 l2).
Proof.
  intros H1. revert l2. induction H1 as [|a l1 Ha _ IH]; intros l2 H2;
    [constructor|].
  destruct H2 as [|c l2 Hc H2]; simpl; constructor.
  - now apply gmul_byte.
  - now apply IH.
Qed.

Lemma LC_bytes : Forall byte LC.
Proof. unfold LC, byte. repeat constructor; lia. Qed.

Lemma L_step_bytes (b : list Z) : bytes 16 b -> bytes 16 (L_step b).
Proof.
  intros [Hlen Hb]. unfold L_step. split.
  - simpl. rewrite length_take. lia.
  - constructor; [|now apply Forall_take].
    apply fold_lxor_byte.
    + apply Forall_byte_lookup_total; [assumption | lia].
    + apply Forall_rev, zip_gmul_byte; [now apply Forall_take | exact LC_bytes].
Qed.

Lemma Linv_step_bytes (b : list Z) : bytes 16 b -> bytes 16 (Linv_step b).
Proof.
  intros [Hlen Hb]. unfold Linv_step. split.
  - rewrite length_app, length_drop. simpl. lia.
  - apply Forall_app. split; [now apply Forall_drop|].
    constructor; [|constructor].
    apply fold_lxor_byte.
    + apply Forall_byte_lookup_total; [assumption | lia].
    + apply zip_gmul_byte; [now apply Forall_drop | exact LC_bytes].
Qed.

Lemma Linv_L_step (b : list Z) : length b = 16%nat -> Linv_step (L_step b) = b.
Proof.
  intros Hlen. unfold Linv_step, L_step, Linv_feedback, L_feedback.
  cbn [drop lookup_total list_lookup_total].
  rewrite drop_0, fold_lxor_cancel.
  rewrite <- (take_drop 15 b) at 3. f_equal.
  do 17 (destruct b as [|? b]; try discriminate Hlen). reflexivity.
Qed.

Lemma L_Linv_step (b : list Z) : length b = 16%nat -> L_step (Linv_step b) = b.
Proof.
  intros Hlen.
  do 17 (destruct b as [|? b]; try discriminate Hlen).
  unfold L_step, Linv_step, L_feedback, Linv_feedback.
  cbn [drop app take lookup_total list_lookup_total].
  set (g := zip_with gmul _ LC).
  rewrite <- (rev_involutive g) at 2. rewrite fold_lxor_cancel.
  reflexivity.
Qed.

Lemma iter_bytes (f : list Z -> list Z) (n : nat) (b : list Z) :
  (forall x, bytes 16 x -> bytes 16 (f x)) ->
  bytes 16 b -> bytes 16 (Nat.iter n f b).
Proof. intros Hf Hb. induction n as [|n IH]; simpl; auto. Qed.

(** The full transform with the default round count, on a 16-byte block. *)
Lemma L_ok (b : list Z) :
  bytes 16 b -> L b L_rounds_default = Ok (Nat.iter 16 L_step b).
Proof.
  intros Hb. unfold L.
  apply (for_const_iter L_step L_round (bytes 16) (range 0 L_rounds_default 1));
    [|exact Hb].
  intros s Hs. split; [now apply L_round_ok | now apply L_step_bytes].
Qed.

Lemma Linv_ok (b : list Z) :
  bytes 16 b -> Linv b = Ok (Nat.iter 16 Linv_step b).
Proof.
  intros Hb. unfold Linv.
  apply (for_const_iter Linv_step Linv_round (bytes 16) (range 0 16 1));
    [|exact Hb].
  intros s Hs. split; [now apply Linv_round_ok | now apply Linv_step_bytes].
Qed.

Lemma iter_inverse (f g : list Z -> list Z) (n : nat) (b : list Z) :
  (forall x, bytes 16 x -> bytes 16 (f x)) ->
  (forall x, bytes 16 x -> g (f x) = x) ->
  bytes 16 b -> Nat.iter n g (Nat.iter n f b) = b.
Proof.
  intros Hf Hgf Hb. induction n as [|n IH]; [reflexivity|].
  rewrite Nat.iter_succ_r, Nat.iter_succ.
  rewrite Hgf; [exact IH|]. now apply iter_bytes.
Qed.

Lemma Linv_L_iter (b : list Z) :
  bytes 16 b -> Nat.iter 16 Linv_step (Nat.iter 16 L_step b) = b.
Proof.
  apply iter_inverse; [exact L_step_bytes|].
  intros x [Hx _]. now apply Linv_L_step.
Qed.

Lemma L_Linv_iter (b : list Z) :
  bytes 16 b -> Nat.iter 16 L_step (Nat.iter 16 Linv_step b) = b.
Proof.
  apply iter_inverse; [exact Linv_step_bytes|].
  intros x [Hx _]. now apply L_Linv_step.
Qed.

(** C4: on every 16-byte state, Linv undoes the 16-round L and the
    16-round L undoes Linv; neither call raises. *)
Theorem Linv_L_inverse (state : list Z) :
  bytes 16 state ->
  (x <- L state 16 ;; Linv x) = Ok state /\
  (x <- Linv state ;; L x 16) = Ok state.
Proof.
  intros Hb. change 16 with L_rounds_default. split.
  - rewrite L_ok by exact Hb. cbn [bind].
    rewrite Linv_ok by (apply iter_bytes; [exact L_step_bytes | exact Hb]).
    now rewrite Linv_L_iter.
  - rewrite Linv_ok by exact Hb. cbn [bind].
    rewrite L_ok by (apply iter_bytes; [exact Linv_step_bytes | exact Hb]).
    now rewrite L_Linv_iter.
Qed.

Lemma Linv_L_inverse_witness :
  bytes 16 kat_plain /\
  (x <- L kat_plain 16 ;; Linv x) = Ok kat_plain /\
  (x <- Linv kat_plain ;; L x 16) = Ok kat_plain.
Proof.
  assert (bytes 16 kat_plain) as H
      by (split; [reflexivity | unfold kat_plain, byte; repeat constructor; lia]).
  split; [exact H | apply (Linv_L_inverse kat_plain H)].
Defined.

(** ** Round constants *)

Lemma C_check_all : forallb C_check (range 1 33 1) = true.
Proof. vm_compute. reflexivity. Qed.

Lemma bytesb_bytes (n : nat) (b : list Z) : bytesb n b = true -> bytes n b.
Proof.
  unfold bytesb. intros [Hl Hb]%andb_prop. split.
  - now apply Nat.eqb_eq.
  - apply Forall_forall. intros v Hv%list_elem_of_In.
    rewrite forallb_forall in Hb. now apply byteb_byte, Hb.
Qed.

Lemma C_check_true (r : Z) : 1 <= r <= 32 -> C_check r = true.
Proof.
  intros Hr. pose proof C_check_all as H. rewrite forallb_forall in H.
  apply H, in_range_up. lia.
Qed.

(** C7: the import-time loop fills C without error with 32 blocks; the
    constant of round r = 1..32 (stored at index r - 1) is L applied with
    16 rounds to the block that is zero except for its last byte r; the
    default round count used at that call site is 16. *)
Theorem round_constants :
  C_init = Ok C /\ L_rounds_default = 16 /\ length C = 32%nat /\
  forall r, 1 <= r <= 32 ->
    exists c, getitem C (r - 1) = Ok c /\ L (unit_block r) 16 = Ok c.
Proof.
  split; [vm_compute; reflexivity|]. split; [reflexivity|].
  split; [reflexivity|].
  intros r Hr. pose proof (C_check_true r Hr) as H. unfold C_check in H.
  destruct (getitem C (r - 1)) as [c|]; [|discriminate].
  destruct (L (unit_block r) 16) as [c'|]; [|discriminate].
  apply andb_prop in H as [H _]. apply bool_decide_eq_true in H. subst c'.
  now exists c.
Qed.

Lemma round_constants_witness :
  1 <= 5 <= 32 /\
  exists c, getitem C (5 - 1) = Ok c /\ L (unit_block 5) 16 = Ok c.
Proof.
  split; [lia|].
  apply (proj2 (proj2 (proj2 round_constants)) 5). lia.
Defined.

Lemma round_constant_ok (r : Z) :
  1 <= r <= 32 ->
  getitem C (r - 1) = Ok (round_constant r) /\ bytes 16 (round_constant r).
Proof.
  intros Hr. pose proof (C_check_true r Hr) as H. unfold C_check in H.
  unfold round_constant.
  destruct (getitem C (r - 1)) as [c|]; [|discriminate].
  destruct (L (unit_block r) 16) as [c'|]; [|discriminate].
  apply andb_prop in H as [_ H]. split; [reflexivity|].
  now apply bytesb_bytes.
Qed.

(** ** XOR of byte strings *)

Lemma strxor_length (a b : list Z) :
  length a = length b -> length (strxor a b) = length a.
Proof. intros H. unfold strxor. rewrite length_zip_with. lia. Qed.

Lemma strxor_byte (a b : list Z) :
  Forall byte a -> Forall byte b -> Forall byte (strxor a b).
Proof.
  intros Ha. revert b. induction Ha as [|x a Hx _ IH]; intros b Hb;
    [constructor|].
  destruct Hb as [|y b Hy Hb]; simpl; constructor.
  - now apply byte_lxor.
  - now apply IH.
Qed.

Lemma strxor_bytes (n : nat) (a b : list Z) :
  bytes n a -> bytes n b -> bytes n (strxor a b).
Proof.
  intros [Hla Ha] [Hlb Hb]. split.
  - rewrite strxor_length; lia.
  - now apply strxor_byte.
Qed.

Lemma strxor_comm (a b : list Z) : strxor a b = strxor b a.
Proof.
  revert b. induction a as [|x a IH]; intros [|y b]; simpl; try reflexivity.
  now rewrite Z.lxor_comm, IH.
Qed.

Lemma strxor_cancel (a b : list Z) :
  length a = length b -> strxor a (strxor a b) = b.
Proof.
  revert b. induction a as [|x a IH]; intros [|y b] Hl; simpl in *;
    try reflexivity; try lia.
  rewrite <- Z.lxor_assoc, Z.lxor_nilpotent, Z.lxor_0_l.
  rewrite IH by lia. reflexivity.
Qed.

(** ** Substitution followed by diffusion *)

Lemma PI_at_ok (v : Z) :
  byte v ->
  getitem PI v = Ok (PI_at v) /\ byte (PI_at v) /\ PIinv_at (PI_at v) = v.
Proof.
  intros Hv. pose proof (byte_forallb _ PI_check_all v Hv) as Hc.
  unfold PI_check in Hc. unfold PI_at, PIinv_at.
  destruct (getitem PI v) as [y|]; [|discriminate].
  destruct (getitem PIinv v) as [z|]; [|discriminate].
  apply andb_prop in Hc as [Hc _]. apply andb_prop in Hc as [Hc H3].
  apply andb_prop in Hc as [H1 _]. apply result_eqb_eq in H3.
  simpl. rewrite H3. auto using byteb_byte.
Qed.

Lemma PIinv_at_ok (v : Z) :
  byte v ->
  getitem PIinv v = Ok (PIinv_at v) /\ byte (PIinv_at v) /\
  PI_at (PIinv_at v) = v.
Proof.
  intros Hv. pose proof (byte_forallb _ PI_check_all v Hv) as Hc.
  unfold PI_check in Hc. unfold PI_at, PIinv_at.
  destruct (getitem PI v) as [y|]; [|discriminate].
  destruct (getitem PIinv v) as [z|]; [|discriminate].
  apply andb_prop in Hc as [Hc H4]. apply andb_prop in Hc as [Hc _].
  apply andb_prop in Hc as [_ H2]. apply result_eqb_eq in H4.
  simpl. rewrite H4. auto using byteb_byte.
Qed.

Lemma map_PI_bytes (n : nat) (b : list Z) :
  bytes n b -> bytes n (map PI_at b).
Proof.
  intros [Hl Hb]. split; [now rewrite length_map|].
  apply Forall_map. eapply Forall_impl; [exact Hb|].
  intros v Hv. apply PI_at_ok, Hv.
Qed.

Lemma map_PIinv_bytes (n : nat) (b : list Z) :
  bytes n b -> bytes n (map PIinv_at b).
Proof.
  intros [Hl Hb]. split; [now rewrite length_map|].
  apply Forall_map. eapply Forall_impl; [exact Hb|].
  intros v Hv. apply PIinv_at_ok, Hv.
Qed.

Lemma map_PIinv_PI (b : list Z) :
  Forall byte b -> map PIinv_at (map PI_at b) = b.
Proof.
  induction 1 as [|v b Hv _ IH]; simpl; [reflexivity|].
  rewrite IH. f_equal. apply PI_at_ok, Hv.
Qed.

Lemma LP_bytes (b : list Z) : bytes 16 b -> bytes 16 (LP b).
Proof.
  intros Hb. apply iter_bytes; [exact L_step_bytes | now apply map_PI_bytes].
Qed.

Lemma LPinv_bytes (b : list Z) : bytes 16 b -> bytes 16 (LPinv b).
Proof.
  intros Hb. apply map_PIinv_bytes, iter_bytes;
    [exact Linv_step_bytes | exact Hb].
Qed.

Lemma LPinv_LP (b : list Z) : bytes 16 b -> LPinv (LP b) = b.
Proof.
  intros Hb. unfold LPinv, LP.
  rewrite Linv_L_iter by now apply map_PI_bytes.
  apply map_PIinv_PI, Hb.
Qed.

Lemma lp_ok (b : list Z) : bytes 16 b -> lp b = Ok (LP b).
Proof.
  intros Hb. unfold lp.
  rewrite (comprehension_map _ PI_at).
  - cbn [bind]. apply L_ok. now apply map_PI_bytes.
  - intros v Hv. apply PI_at_ok.
    destruct Hb as [_ Hb]. rewrite Forall_forall in Hb.
    now apply Hb, list_elem_of_In.
Qed.

(** What one round of [decrypt] applies after the XOR. *)
Lemma lpinv_ok (b : list Z) :
  bytes 16 b ->
  (x <- Linv b ;; comprehension (fun v => getitem PIinv v) x) = Ok (LPinv b).
Proof.
  intros Hb. rewrite Linv_ok by exact Hb. cbn [bind].
  apply comprehension_map. intros v Hv. apply PIinv_at_ok.
  assert (bytes 16 (Nat.iter 16 Linv_step b)) as [_ Hi]
      by (apply iter_bytes; [exact Linv_step_bytes | exact Hb]).
  rewrite Forall_forall in Hi. now apply Hi, list_elem_of_In.
Qed.

(** ** Key schedule *)

Lemma feistel_bytes (n : nat) (st : list Z * list Z) :
  bytes 16 (fst st) -> bytes 16 (snd st) -> (n <= 32)%nat ->
  bytes 16 (fst (feistel n st)) /\ bytes 16 (snd (feistel n st)).
Proof.
  intros Hl Hr. induction n as [|n IH]; intros Hn; [simpl; auto|].
  destruct IH as [IHl IHr]; [lia|]. cbn [feistel].
  destruct (feistel n st) as [l r0]. cbn [fst snd feistel_round] in *.
  split; [|exact IHl].
  apply strxor_bytes; [|exact IHr].
  apply LP_bytes, strxor_bytes; [exact IHl|].
  apply round_constant_ok. lia.
Qed.

(** One group of eight rounds of the schedule, started after [8 * g]
    rounds. *)
Lemma key_schedule_group (st0 : list Z * list Z) (ks : list (list Z))
      (g : nat) :
  bytes 16 (fst st0) -> bytes 16 (snd st0) -> (g < 4)%nat ->
  for_ (range 0 8 1)
       (fun j st =>
          let '(kr0, kr1, ks) := st in
          c <- getitem C (8 * Z.of_nat g + j) ;;
          k <- lp (strxor c kr0) ;;
          Ok (strxor k kr1, kr0, ks))
       (fst (feistel (8 * g) st0), snd (feistel (8 * g) st0), ks)
  = Ok (fst (feistel (8 * g + 8) st0), snd (feistel (8 * g + 8) st0), ks).
Proof.
  intros Hl Hr Hg.
  match goal with
  | |- for_ ?xs ?body ?s0 = _ =>
      destruct (for_invariant
                  (fun j st => st = (fst (feistel (8 * g + j) st0),
                                     snd (feistel (8 * g + j) st0), ks))
                  body xs) with (s := s0) as (s' & -> & ->)
  end.
  - intros j x st [-> Hj]%range_up_lookup ->. simpl in Hj.
    destruct (feistel_bytes (8 * g + j) st0 Hl Hr ltac:(lia))
      as [Hfl Hfr].
    destruct (round_constant_ok (Z.of_nat (S (8 * g + j))) ltac:(lia))
      as [Hc Hcb].
    replace (8 * Z.of_nat g + (0 + Z.of_nat j))
      with (Z.of_nat (S (8 * g + j)) - 1) by lia.
    rewrite Hc. cbn [bind].
    rewrite lp_ok by now apply strxor_bytes. cbn [bind].
    eexists. split; [reflexivity|].
    replace (8 * g + S j)%nat with (S (8 * g + j)) by lia.
    cbn [feistel]. destruct (feistel (8 * g + j) st0) as [l r0].
    cbn [fst snd feistel_round].
    now rewrite (strxor_comm l).
  - now rewrite Nat.add_0_r.
  - reflexivity.
Qed.


Lemma key_halves (key : list Z) :
  bytes 32 key -> bytes 16 (take 16 key) /\ bytes 16 (drop 16 key).
Proof.
  intros [Hl Hb]. split; split.
  - rewrite length_take. lia.
  - now apply Forall_take.
  - rewrite length_drop. lia.
  - now apply Forall_drop.
Qed.

Lemma init_ok (key : list Z) :
  bytes 32 key ->
  GOST3412Kuznechik.init key
  = Ok {| GOST3412Kuznechik.ks := derive_round_keys key |}.
Proof.
  intros Hkey. destruct (key_halves key Hkey) as [Hl Hr].
  unfold GOST3412Kuznechik.init, derive_round_keys.
  set (st0 := (take 16 key, drop 16 key)).
  match goal with
  | |- context [for_ ?xs ?body ?s0] =>
      destruct (for_invariant
                  (fun g st =>
                     st = (fst (feistel (8 * g) st0),
                           snd (feistel (8 * g) st0),
                           [fst st0; snd st0]
                             ++ concat (map (snapshot st0) (seq 1 g))))
                  body xs) with (s := s0) as (s' & -> & ->)
  end.
  - intros g x st [-> Hg]%range_up_lookup ->. simpl in Hg.
    change (0 + Z.of_nat g) with (Z.of_nat g).
    rewrite (key_schedule_group st0 _ g Hl Hr Hg). cbn [bind].
    eexists. split; [reflexivity|].
    replace (8 * S g)%nat with (8 * g + 8)%nat by lia.
    rewrite seq_S, map_app, concat_app. cbn [map concat].
    assert (snapshot st0 (1 + g)
            = [fst (feistel (8 * g + 8) st0); snd (feistel (8 * g + 8) st0)])
      as -> by (unfold snapshot; now replace (8 * (1 + g))%nat
                                      with (8 * g + 8)%nat by lia).
    rewrite app_nil_r, <- !app_assoc. reflexivity.
  - reflexivity.
  - reflexivity.
Qed.

Lemma derive_round_keys_bytes (key : list Z) :
  bytes 32 key ->
  length (derive_round_keys key) = 10%nat /\
  Forall (bytes 16) (derive_round_keys key).
Proof.
  intros Hkey. destruct (key_halves key Hkey) as [Hl Hr].
  unfold derive_round_keys. cbn [seq map concat app snapshot fst snd].
  set (st0 := (take 16 key, drop 16 key)).
  split; [reflexivity|].
  pose proof (fun n => feistel_bytes n st0 Hl Hr) as H.
  apply List.Forall_cons; [exact Hl|].
  apply List.Forall_cons; [exact Hr|].
  do 4 (apply List.Forall_cons; [refine (proj1 (H _ _)); simpl; lia|];
        apply List.Forall_cons; [refine (proj2 (H _ _)); simpl; lia|]).
  apply List.Forall_nil.
Qed.

(** C6: given a 32-byte master key, the constructor (which takes nothing
    but the key) returns an instance holding exactly 10 round keys of 16
    bytes: the two halves of the key, then the (left, right) pair after
    rounds 8, 16, 24 and 32 of the recurrence
    (left, right) := (LP(left XOR C[r]) XOR right, left), r = 1..32. *)
Theorem key_schedule (key : list Z) :
  bytes 32 key ->
  let st0 := (take 16 key, drop 16 key) in
  GOST3412Kuznechik.init key
  = Ok {| GOST3412Kuznechik.ks := derive_round_keys key |} /\
  derive_round_keys key
  = [take 16 key; drop 16 key;
     fst (feistel 8 st0); snd (feistel 8 st0);
     fst (feistel 16 st0); snd (feistel 16 st0);
     fst (feistel 24 st0); snd (feistel 24 st0);
     fst (feistel 32 st0); snd (feistel 32 st0)] /\
  take 16 key ++ drop 16 key = key /\
  length (derive_round_keys key) = 10%nat /\
  Forall (bytes 16) (derive_round_keys key).
Proof.
  intros Hkey st0. split; [now apply init_ok|].
  split; [unfold derive_round_keys;
          cbn [seq map concat app snapshot fst snd]; reflexivity|].
  split; [apply take_drop|].
  now apply derive_round_keys_bytes.
Qed.

Lemma kat_key_bytes : bytes 32 kat_key.
Proof.
  split; [reflexivity|]. unfold kat_key, byte.
  repeat (apply List.Forall_cons; [lia|]). apply List.Forall_nil.
Qed.

Lemma kat_plain_bytes : bytes 16 kat_plain.
Proof.
  split; [reflexivity|]. unfold kat_plain, byte.
  repeat (apply List.Forall_cons; [lia|]). apply List.Forall_nil.
Qed.

Lemma key_schedule_witness :
  bytes 32 kat_key /\
  let st0 := (take 16 kat_key, drop 16 kat_key) in
  GOST3412Kuznechik.init kat_key
  = Ok {| GOST3412Kuznechik.ks := derive_round_keys kat_key |} /\
  derive_round_keys kat_key
  = [take 16 kat_key; drop 16 kat_key;
     fst (feistel 8 st0); snd (feistel 8 st0);
     fst (feistel 16 st0); snd (feistel 16 st0);
     fst (feistel 24 st0); snd (feistel 24 st0);
     fst (feistel 32 st0); snd (feistel 32 st0)] /\
  take 16 kat_key ++ drop 16 kat_key = kat_key /\
  length (derive_round_keys kat_key) = 10%nat /\
  Forall (bytes 16) (derive_round_keys kat_key).
Proof.
  split; [exact kat_key_bytes | exact (key_schedule kat_key kat_key_bytes)].
Defined.

(** ** Block transform *)

Section block_transform.

Variable ks : list (list Z).
Hypothesis ks_length : length ks = 10%nat.
Hypothesis ks_bytes : Forall (bytes 16) ks.

Let self : GOST3412Kuznechik.t := {| GOST3412Kuznechik.ks := ks |}.

Lemma round_key_bytes (i : nat) : (i < 10)%nat -> bytes 16 (ks !!! i).
Proof.
  intros Hi. apply (Forall_lookup_1 _ _ i (ks !!! i) ks_bytes).
  apply list_lookup_lookup_total_lt. lia.
Qed.

Lemma encrypt_rounds_bytes (n : nat) (blk : list Z) :
  bytes 16 blk -> (n <= 10)%nat -> bytes 16 (encrypt_rounds ks n blk).
Proof.
  intros Hb. induction n as [|n IH]; intros Hn; [exact Hb|].
  cbn [encrypt_rounds]. apply LP_bytes, strxor_bytes.
  - apply round_key_bytes. lia.
  - apply IH. lia.
Qed.

Lemma decrypt_rounds_bytes (n : nat) (blk : list Z) :
  bytes 16 blk -> bytes 16 (decrypt_rounds ks n blk).
Proof.
  intros Hb. induction n as [|n IH]; [exact Hb|].
  cbn [decrypt_rounds]. apply LPinv_bytes, strxor_bytes.
  - apply round_key_bytes. lia.
  - exact IH.
Qed.

Lemma encrypt_ok (blk : list Z) :
  bytes 16 blk ->
  GOST3412Kuznechik.encrypt self blk = Ok (encrypt_value ks blk).
Proof.
  intros Hb. unfold GOST3412Kuznechik.encrypt.
  match goal with
  | |- context [for_ ?xs ?body ?s0] =>
      destruct (for_invariant
                  (fun n b => b = encrypt_rounds ks n blk) body xs)
        with (s := s0) as (s' & -> & ->)
  end.
  - intros n x b [-> Hn]%range_up_lookup ->. simpl in Hn.
    cbn [GOST3412Kuznechik.ks self].
    rewrite getitem_total by lia. cbn [bind].
    replace (Z.to_nat (0 + Z.of_nat n)) with n by lia.
    rewrite lp_ok.
    + eexists. split; reflexivity.
    + apply strxor_bytes;
        [apply round_key_bytes | apply encrypt_rounds_bytes]; auto; lia.
  - reflexivity.
  - cbn [bind GOST3412Kuznechik.ks self].
    rewrite getitem_total by lia. reflexivity.
Qed.

Lemma decrypt_ok (blk : list Z) :
  bytes 16 blk ->
  GOST3412Kuznechik.decrypt self blk = Ok (decrypt_value ks blk).
Proof.
  intros Hb. unfold GOST3412Kuznechik.decrypt.
  match goal with
  | |- context [for_ ?xs ?body ?s0] =>
      destruct (for_invariant
                  (fun n b => b = decrypt_rounds ks n blk) body xs)
        with (s := s0) as (s' & -> & ->)
  end.
  - intros n x b [-> Hn]%range_down_lookup ->. simpl in Hn.
    cbn [GOST3412Kuznechik.ks self].
    rewrite getitem_total by lia. cbn [bind].
    replace (Z.to_nat (9 - Z.of_nat n)) with (9 - n)%nat by lia.
    rewrite lpinv_ok.
    + eexists. split; reflexivity.
    + apply strxor_bytes;
        [apply round_key_bytes | apply decrypt_rounds_bytes]; auto; lia.
  - reflexivity.
  - cbn [bind GOST3412Kuznechik.ks self].
    rewrite getitem_total by lia. reflexivity.
Qed.

(** After [n] rounds, [decrypt] has peeled the last [n] rounds of
    [encrypt] off the ciphertext. *)
Lemma decrypt_peels_encrypt (blk : list Z) (n : nat) :
  bytes 16 blk -> (n <= 9)%nat ->
  decrypt_rounds ks n (encrypt_value ks blk)
  = strxor (ks !!! (9 - n)%nat) (encrypt_rounds ks (9 - n) blk).
Proof.
  intros Hb. induction n as [|n IH]; intros Hn; [reflexivity|].
  cbn [decrypt_rounds]. rewrite IH by lia.
  rewrite strxor_cancel.
  2:{ destruct (round_key_bytes (9 - n) ltac:(lia)) as [-> _].
      destruct (encrypt_rounds_bytes (9 - n) blk Hb ltac:(lia)) as [-> _].
      lia. }
  replace (9 - n)%nat with (S (9 - S n)) by lia.
  cbn [encrypt_rounds]. rewrite LPinv_LP.
  - now replace (9 - S n)%nat with (9 - S n)%nat by lia.
  - apply strxor_bytes;
      [apply round_key_bytes | apply encrypt_rounds_bytes]; auto; lia.
Qed.

Lemma decrypt_encrypt_value (blk : list Z) :
  bytes 16 blk -> decrypt_value ks (encrypt_value ks blk) = blk.
Proof.
  intros Hb. unfold decrypt_value.
  rewrite decrypt_peels_encrypt by (auto; lia).
  cbn [Nat.sub encrypt_rounds]. apply strxor_cancel.
  destruct (round_key_bytes 0 ltac:(lia)) as [-> _].
  destruct Hb as [-> _]. lia.
Qed.

Lemma encrypt_value_bytes (blk : list Z) :
  bytes 16 blk -> bytes 16 (encrypt_value ks blk).
Proof.
  intros Hb. apply strxor_bytes;
    [apply round_key_bytes | apply encrypt_rounds_bytes]; auto; lia.
Qed.

End block_transform.

(** C2: for every 32-byte key and every 16-byte block, the instance built
    from the key encrypts the block to a 16-byte block that it decrypts
    back to the original; none of the three calls raises. *)
Theorem decrypt_encrypt_roundtrip (key blk : list Z) :
  bytes 32 key -> bytes 16 blk ->
  exists self c,
    GOST3412Kuznechik.init key = Ok self /\
    GOST3412Kuznechik.encrypt self blk = Ok c /\
    bytes 16 c /\
    GOST3412Kuznechik.decrypt self c = Ok blk.
Proof.
  intros Hkey Hblk.
  destruct (derive_round_keys_bytes key Hkey) as [Hlen Hks].
  exists {| GOST3412Kuznechik.ks := derive_round_keys key |},
         (encrypt_value (derive_round_keys key) blk).
  split; [now apply init_ok|].
  split; [now apply encrypt_ok|].
  split; [now apply encrypt_value_bytes|].
  rewrite decrypt_ok by (auto using encrypt_value_bytes).
  f_equal. now apply decrypt_encrypt_value.
Qed.

Lemma decrypt_encrypt_roundtrip_witness :
  bytes 32 kat_key /\ bytes 16 kat_plain /\
  exists self c,
    GOST3412Kuznechik.init kat_key = Ok self /\
    GOST3412Kuznechik.encrypt self kat_plain = Ok c /\
    bytes 16 c /\
    GOST3412Kuznechik.decrypt self c = Ok kat_plain.
Proof.
  split; [exact kat_key_bytes|]. split; [exact kat_plain_bytes|].
  exact (decrypt_encrypt_roundtrip kat_key kat_plain
           kat_key_bytes kat_plain_bytes).
Defined.

(** ** Known-answer vector *)

(** C1 does not hold of the code. For the known-answer key
    8899aabbccddeeff0011223344556677fedcba98765432100123456789abcdef and
    block 1122334455667700ffeeddccbbaa9988 the constructor returns an
    instance and encrypt returns b5bfe7521b7aa245fcc056f35aa46b66, which is
    not the ciphertext 7f679d90bebc24305a468d42b9d4edcd of the standard the
    module names; decrypt of the standard's ciphertext returns
    c54c9a4dff61c5f964129a1087589e69, which is not the plaintext. *)
Theorem known_answer_diverges :
  hexlify kat_key
  = "8899aabbccddeeff0011223344556677fedcba98765432100123456789abcdef"%string /\
  hexlify kat_plain = "1122334455667700ffeeddccbbaa9988"%string /\
  hexlify kat_cipher_spec = "7f679d90bebc24305a468d42b9d4edcd"%string /\
  exists self c p,
    GOST3412Kuznechik.init kat_key = Ok self /\
    GOST3412Kuznechik.encrypt self kat_plain = Ok c /\
    hexlify c = "b5bfe7521b7aa245fcc056f35aa46b66"%string /\
    c <> kat_cipher_spec /\
    GOST3412Kuznechik.decrypt self kat_cipher_spec = Ok p /\
    hexlify p = "c54c9a4dff61c5f964129a1087589e69"%string /\
    p <> kat_plain.
Proof.
  split; [reflexivity|]. split; [reflexivity|]. split; [reflexivity|].
  exists {| GOST3412Kuznechik.ks := kat_round_keys |}, kat_cipher,
         kat_decrypted_spec.
  split; [vm_compute; reflexivity|].
  split; [vm_compute; reflexivity|].
  split; [reflexivity|].
  split; [discriminate|].
  split; [vm_compute; reflexivity|].
  split; [reflexivity|].
  discriminate.
Qed.

(** * The store: what a call leaves unchanged *)

Section frames.

Variable h0 : heap.

Lemma frames_ret {A : Type} (a : A) (Q : A -> Prop) :
  Q a -> frames h0 (ret a) Q.
Proof. intros Ha h Hh. split; [exact Hh|]. now intros a' [= <-]. Qed.

Lemma frames_lift {A : Type} (r : result A) :
  frames h0 (lift r) (fun _ => True).
Proof. intros h Hh. split; [exact Hh | auto]. Qed.

Lemma frames_bind {A B : Type} (m : M A) (k : A -> M B)
      (Q : A -> Prop) (R : B -> Prop) :
  frames h0 m Q -> (forall a, Q a -> frames h0 (k a) R) ->
  frames h0 (bindM m k) R.
Proof.
  intros Hm Hk h Hh. unfold bindM. destruct (Hm h Hh) as [Hsub HQ].
  destruct (m h) as [[a|e] h1]; simpl in *.
  - apply (Hk a); auto.
  - split; [exact Hsub | discriminate].
Qed.

Lemma frames_weaken {A : Type} (m : M A) (Q R : A -> Prop) :
  frames h0 m Q -> (forall a, Q a -> R a) -> frames h0 m R.
Proof.
  intros Hm HQR h Hh. destruct (Hm h Hh) as [Hsub HQ]. split; auto.
Qed.

(** A new object is none of the objects of [h0]. *)
Lemma frames_alloc (o : obj) :
  frames h0 (alloc o) (fun l => h0 !! l = None).
Proof.
  intros h Hh. unfold alloc. simpl.
  assert (h0 !! fresh (dom h) = None) as Hf.
  { destruct (h0 !! fresh (dom h)) as [o'|] eqn:E; [|reflexivity].
    apply (lookup_weaken _ h) in E; [|exact Hh].
    assert (fresh (dom h) ∈ dom h) as Hin by (apply elem_of_dom; eauto).
    now apply is_fresh in Hin. }
  split.
  - now apply insert_subseteq_r.
  - now intros a [= <-].
Qed.

Lemma frames_ints_of (l : loc) : frames h0 (ints_of l) (fun _ => True).
Proof.
  intros h Hh. unfold ints_of.
  destruct (h !! l) as [[b|r]|]; simpl; auto.
Qed.

Lemma frames_refs_of (l : loc) : frames h0 (refs_of l) (fun _ => True).
Proof.
  intros h Hh. unfold refs_of.
  destruct (h !! l) as [[b|r]|]; simpl; auto.
Qed.

(** Overwriting an object that is none of the objects of [h0]. *)
Lemma frames_store_ints (l : loc) (b : list Z) :
  h0 !! l = None -> frames h0 (store_ints l b) (fun _ => True).
Proof.
  intros Hl h Hh. unfold store_ints. simpl.
  split; [now apply insert_subseteq_r | auto].
Qed.

Lemma frames_item (l : loc) (i : Z) : frames h0 (item l i) (fun _ => True).
Proof.
  unfold item. eapply frames_bind; [apply frames_ints_of|].
  intros b _. apply frames_lift.
Qed.

Lemma frames_ref_item (l : loc) (i : Z) :
  frames h0 (ref_item l i) (fun _ => True).
Proof.
  unfold ref_item. eapply frames_bind; [apply frames_refs_of|].
  intros b _. apply frames_lift.
Qed.

Lemma frames_set_item (l : loc) (i v : Z) :
  h0 !! l = None -> frames h0 (set_item l i v) (fun _ => True).
Proof.
  intros Hl. unfold set_item. eapply frames_bind; [apply frames_ints_of|].
  intros b _. eapply frames_bind; [apply frames_lift|].
  intros b' _. now apply frames_store_ints.
Qed.

Lemma frames_forM {S : Type} (xs : list Z) (body : Z -> S -> M S)
      (Q : S -> Prop) :
  (forall x s, Q s -> frames h0 (body x s) Q) ->
  forall s, Q s -> frames h0 (forM xs body s) Q.
Proof.
  intros Hbody. induction xs as [|x xs IH]; intros s Hs; simpl.
  - now apply frames_ret.
  - eapply frames_bind; [now apply Hbody | exact IH].
Qed.

Lemma frames_comprehensionM {A B : Type} (f : A -> M B) (l : list A) :
  (forall v, frames h0 (f v) (fun _ => True)) ->
  frames h0 (comprehensionM f l) (fun _ => True).
Proof.
  intros Hf. induction l as [|v l IH]; simpl.
  - now apply frames_ret.
  - eapply frames_bind; [apply Hf|]. intros b _.
    eapply frames_bind; [exact IH|]. intros bs _. now apply frames_ret.
Qed.

Lemma frames_copy (l : loc) :
  frames h0 (bytearray_of l) (fun l' => h0 !! l' = None).
Proof.
  unfold bytearray_of. eapply frames_bind; [apply frames_ints_of|].
  intros b _. apply frames_alloc.
Qed.

Variable g : globals.

Lemma frames_strxor (a b : loc) :
  frames h0 (Store.strxor a b) (fun l => h0 !! l = None).
Proof.
  unfold Store.strxor. eapply frames_bind; [apply frames_ints_of|].
  intros x _. eapply frames_bind; [apply frames_ints_of|].
  intros y _. apply frames_alloc.
Qed.

Ltac frames_step :=
  first [ apply frames_item | apply frames_ref_item
        | apply frames_set_item; assumption
        | apply frames_ints_of | apply frames_lift ].

(** [L] and [Linv] write to their argument only. *)
Lemma frames_L_round (blk : loc) :
  h0 !! blk = None -> frames h0 (Store.L_round g blk) (fun _ => True).
Proof.
  intros Hblk. unfold Store.L_round.
  eapply frames_bind; [apply frames_item|]. intros t _.
  eapply frames_bind.
  - apply (frames_forM _ _ (fun _ => True)); [|exact I].
    intros i t' _.
    repeat (eapply frames_bind; [frames_step|]; intros ? _).
    now apply frames_ret.
  - intros t' _. now apply frames_set_item.
Qed.

Lemma frames_L (blk : loc) (rounds : Z) :
  h0 !! blk = None ->
  frames h0 (Store.L g blk rounds) (fun l => h0 !! l = None).
Proof.
  intros Hblk. unfold Store.L. eapply frames_bind.
  - apply (frames_forM _ _ (fun _ => True)); [|exact I].
    intros _ [] _. now apply frames_L_round.
  - intros _ _. now apply frames_ret.
Qed.

Lemma frames_Linv_round (blk : loc) :
  h0 !! blk = None -> frames h0 (Store.Linv_round g blk) (fun _ => True).
Proof.
  intros Hblk. unfold Store.Linv_round.
  eapply frames_bind; [apply frames_item|]. intros t _.
  eapply frames_bind.
  - apply (frames_forM _ _ (fun _ => True)); [|exact I].
    intros i t' _.
    repeat (eapply frames_bind; [frames_step|]; intros ? _).
    now apply frames_ret.
  - intros t' _. now apply frames_set_item.
Qed.

Lemma frames_Linv (blk : loc) :
  h0 !! blk = None ->
  frames h0 (Store.Linv g blk) (fun l => h0 !! l = None).
Proof.
  intros Hblk. unfold Store.Linv. eapply frames_bind.
  - apply (frames_forM _ _ (fun _ => True)); [|exact I].
    intros _ [] _. now apply frames_Linv_round.
  - intros _ _. now apply frames_ret.
Qed.

(** [lp] applies [L] to a list it has just built. *)
Lemma frames_lp (blk : loc) :
  frames h0 (Store.lp g blk) (fun l => h0 !! l = None).
Proof.
  unfold Store.lp. eapply frames_bind; [apply frames_ints_of|].
  intros b _. eapply frames_bind.
  { apply frames_comprehensionM. intros v. apply frames_item. }
  intros vs _. eapply frames_bind; [apply frames_alloc|].
  intros new Hnew. now apply frames_L.
Qed.

Lemma frames_encrypt (self : Store.t) (blk : loc) :
  frames h0 (Store.encrypt g self blk) (fun l => h0 !! l = None).
Proof.
  unfold Store.encrypt. eapply frames_bind; [apply frames_copy|].
  intros b Hb. eapply frames_bind.
  - apply (frames_forM _ _ (fun l => h0 !! l = None)); [|exact Hb].
    intros i b' _.
    eapply frames_bind; [apply frames_ref_item|]. intros k _.
    eapply frames_bind; [apply frames_strxor|]. intros x _.
    eapply frames_bind; [apply frames_copy|]. intros x' _.
    apply frames_lp.
  - intros b' _.
    eapply frames_bind; [apply frames_ref_item|]. intros k _.
    eapply frames_bind; [apply frames_strxor|]. intros x _.
    apply frames_copy.
Qed.

Lemma frames_decrypt (self : Store.t) (blk : loc) :
  frames h0 (Store.decrypt g self blk) (fun l => h0 !! l = None).
Proof.
  unfold Store.decrypt. eapply frames_bind; [apply frames_copy|].
  intros b Hb. eapply frames_bind.
  - apply (frames_forM _ _ (fun l => h0 !! l = None)); [|exact Hb].
    intros i b' _.
    eapply frames_bind; [apply frames_ref_item|]. intros k _.
    eapply frames_bind; [apply frames_strxor|]. intros x _.
    eapply frames_bind; [apply frames_copy|]. intros x' Hx'.
    eapply frames_bind; [now apply frames_Linv|]. intros x'' _.
    eapply frames_bind; [apply frames_ints_of|]. intros c _.
    eapply frames_bind.
    { apply frames_comprehensionM. intros v. apply frames_item. }
    intros vs _. apply frames_alloc.
  - intros b' _.
    eapply frames_bind; [apply frames_ref_item|]. intros k _.
    eapply frames_bind; [apply frames_strxor|]. intros x _.
    apply frames_copy.
Qed.

End frames.

(** * The store: the calls return the values computed above *)

Lemma unchanged_subseteq (h h' : heap) : unchanged h h' <-> h ⊆ h'.
Proof. unfold unchanged. now rewrite map_subseteq_spec. Qed.

Lemma fresh_not_in (h0 h : heap) : h0 ⊆ h -> h0 !! fresh (dom h) = None.
Proof.
  intros Hh. destruct (h0 !! fresh (dom h)) as [o'|] eqn:E; [|reflexivity].
  apply (lookup_weaken _ h) in E; [|exact Hh].
  assert (fresh (dom h) ∈ dom h) as Hin by (apply elem_of_dom; eauto).
  now apply is_fresh in Hin.
Qed.

Lemma ints_at_Some (h : heap) (l : loc) (b : list Z) :
  ints_at h l = Some b <-> h !! l = Some (OInts b).
Proof.
  unfold ints_at. destruct (h !! l) as [[b'|r]|]; split; congruence.
Qed.

Lemma ints_at_weaken (h h' : heap) (l : loc) (b : list Z) :
  h ⊆ h' -> ints_at h l = Some b -> ints_at h' l = Some b.
Proof.
  rewrite !ints_at_Some. intros Hh Hl. now apply (lookup_weaken h).
Qed.

Lemma ints_at_insert (h : heap) (l : loc) (b : list Z) :
  ints_at (<[l := OInts b]> h) l = Some b.
Proof. apply ints_at_Some, lookup_insert_eq. Qed.

Lemma table_at_weaken (h h' : heap) (l : loc) (T : list (list Z)) :
  h ⊆ h' -> table_at h l = Some T -> table_at h' l = Some T.
Proof.
  intros Hh. unfold table_at.
  destruct (h !! l) as [[b|r]|] eqn:E; try discriminate.
  rewrite (lookup_weaken _ _ _ _ E Hh). rewrite !mapM_Some.
  intros HF. eapply Forall2_impl; [exact HF|].
  intros x y. now apply ints_at_weaken.
Qed.

Lemma module_loaded_weaken (g : globals) (h h' : heap) :
  h ⊆ h' -> module_loaded g h -> module_loaded g h'.
Proof.
  intros Hh (H1 & H2 & H3 & H4 & H5).
  repeat split; eauto using ints_at_weaken, table_at_weaken.
Qed.

Lemma run_ints_of (h : heap) (l : loc) (b : list Z) :
  ints_at h l = Some b -> ints_of l h = (Ok b, h).
Proof. rewrite ints_at_Some. unfold ints_of. now intros ->. Qed.

Lemma run_item (h : heap) (l : loc) (b : list Z) (i v : Z) :
  ints_at h l = Some b -> getitem b i = Ok v -> item l i h = (Ok v, h).
Proof.
  intros Hl Hv. unfold item, bindM. rewrite (run_ints_of h l b Hl).
  unfold lift. now rewrite Hv.
Qed.

Lemma run_set_item (h : heap) (l : loc) (b b' : list Z) (i v : Z) :
  ints_at h l = Some b -> setitem b i v = Ok b' ->
  set_item l i v h = (Ok tt, <[l := OInts b']> h).
Proof.
  intros Hl Hv. unfold set_item, bindM. rewrite (run_ints_of h l b Hl).
  unfold lift. now rewrite Hv.
Qed.

(** Indexing a list of byte strings gives the object with the indexed
    contents. *)
Lemma run_ref_item (h : heap) (l : loc) (T : list (list Z)) (i : Z)
      (row : list Z) :
  table_at h l = Some T -> 0 <= i -> getitem T i = Ok row ->
  exists rl, ref_item l i h = (Ok rl, h) /\ ints_at h rl = Some row.
Proof.
  intros HT Hi Hrow%getitem_Ok_lookup; [|exact Hi].
  unfold table_at in HT.
  destruct (h !! l) as [[b|r]|] eqn:E; try discriminate.
  apply mapM_Some in HT.
  destruct (Forall2_lookup_r _ _ _ _ _ HT Hrow) as (rl & Hrl & Hat).
  exists rl. split; [|exact Hat].
  unfold ref_item, bindM, refs_of. rewrite E. unfold lift.
  now rewrite (getitem_lookup r i rl Hi Hrl).
Qed.

Lemma forM_invariant {S : Type} (P : nat -> S -> heap -> Prop)
      (body : Z -> S -> M S) (xs : list Z) :
  (forall k x s h, xs !! k = Some x -> P k s h ->
     exists s' h', body x s h = (Ok s', h') /\ P (Datatypes.S k) s' h') ->
  forall s h, P O s h ->
    exists s' h', forM xs body s h = (Ok s', h') /\ P (length xs) s' h'.
Proof.
  revert P. induction xs as [|x xs IH]; intros P Hbody s h Hs; simpl.
  - unfold ret. eauto.
  - destruct (Hbody O x s h eq_refl Hs) as (s1 & h1 & Hb & Hs1).
    unfold bindM. rewrite Hb.
    apply (IH (fun k => P (Datatypes.S k))); [|exact Hs1].
    intros k y s0 h2 Hk. now apply (Hbody (Datatypes.S k)).
Qed.

Lemma comprehensionM_map {A B : Type} (f : A -> M B) (fv : A -> B)
      (l : list A) (h : heap) :
  (forall v, In v l -> f v h = (Ok (fv v), h)) ->
  comprehensionM f l h = (Ok (map fv l), h).
Proof.
  induction l as [|v l IH]; intros H; simpl; [reflexivity|].
  unfold bindM. rewrite (H v (or_introl eq_refl)).
  rewrite IH; [reflexivity|]. intros w Hw. apply H. now right.
Qed.

(** A loop over the store simulates a fold over values related to the
    store by [R]. *)
Lemma forM_fold {S T : Type} (R : T -> S -> heap -> Prop) (f : Z -> T -> T)
      (body : Z -> S -> M S) (xs : list Z) :
  (forall x t s h, In x xs -> R t s h ->
     exists s' h', body x s h = (Ok s', h') /\ R (f x t) s' h') ->
  forall t s h, R t s h ->
    exists s' h',
      forM xs body s h = (Ok s', h') /\
      R (fold_left (fun t x => f x t) xs t) s' h'.
Proof.
  induction xs as [|x xs IH]; intros Hbody t s h Hs; simpl.
  - unfold ret. eauto.
  - destruct (Hbody x t s h (or_introl eq_refl) Hs) as (s1 & h1 & Hb & Hs1).
    unfold bindM. rewrite Hb. apply IH; [|exact Hs1].
    intros y t0 s0 h2 Hy. apply Hbody. now right.
Qed.

Lemma L_inner_fold (b bk : list Z) (t : Z) :
  length b = 16%nat ->
  fold_left (fun st x => L_inner x st) (range 14 (-1) (-1)) (b, b !!! 15%nat)
  = (bk, t) ->
  <[0%nat := t]> bk = L_step b.
Proof.
  intros Hlen.
  do 17 (destruct b as [|? b]; try discriminate Hlen).
  lazy -[gmul Z.lxor]. now intros [= <- <-].
Qed.

Lemma Linv_inner_fold (b bk : list Z) (t : Z) :
  length b = 16%nat ->
  fold_left (fun st x => Linv_inner x st) (range 0 15 1) (b, b !!! 0%nat)
  = (bk, t) ->
  <[15%nat := t]> bk = Linv_step b.
Proof.
  intros Hlen.
  do 17 (destruct b as [|? b]; try discriminate Hlen).
  lazy -[gmul Z.lxor]. now intros [= <- <-].
Qed.

Section store_refinement.

Variable g : globals.
Variable h0 : heap.
Hypothesis loaded : module_loaded g h0.

(** [GF[bi][LC[i]]] read from the store. *)
Lemma run_GF_LC {A : Type} (h : heap) (bi i : Z) (k : Z -> M A) :
  h0 ⊆ h -> byte bi -> 0 <= i < 16 ->
  (row <~ ref_item (g_GF g) bi ;;
   lc <~ item (g_LC g) i ;;
   gv <~ item row lc ;;
   k gv) h
  = k (gmul bi (LC !!! Z.to_nat i)) h.
Proof.
  intros Hh Hbi Hi. destruct loaded as (HLC & _ & _ & HGF & _).
  pose proof (LC_byte i Hi) as Hlc.
  destruct (gmul_byte _ _ Hbi Hlc) as [Hg _]. unfold GF_lookup in Hg.
  apply bind_Ok_inv in Hg as (row & Hrow & Hg).
  destruct (run_ref_item h (g_GF g) GF bi row) as (rl & Hrl & Hat);
    [now apply (table_at_weaken h0) | apply Hbi | exact Hrow |].
  unfold bindM at 1. rewrite Hrl.
  unfold bindM at 1.
  rewrite (run_item h (g_LC g) LC i (LC !!! Z.to_nat i));
    [|now apply (ints_at_weaken h0) | apply getitem_total; simpl; lia].
  unfold bindM at 1. now rewrite (run_item h rl row _ _ Hat Hg).
Qed.

Lemma run_L_round (h : heap) (blk : loc) (b : list Z) :
  h0 ⊆ h -> h0 !! blk = None -> ints_at h blk = Some b -> bytes 16 b ->
  Store.L_round g blk h = (Ok tt, <[blk := OInts (L_step b)]> h).
Proof.
  intros Hh Hblk Hb [Hlen HB]. unfold Store.L_round.
  unfold bindM at 1.
  rewrite (run_item h blk b 15 (b !!! 15%nat) Hb)
    by (apply (getitem_total b 15); lia).
  unfold bindM at 1.
  match goal with
  | |- context [forM ?xs ?body ?s0 h] =>
      destruct (forM_fold
                  (fun (st : list Z * Z) t h' =>
                     t = snd st /\ bytes 16 (fst st) /\
                     h' = <[blk := OInts (fst st)]> h)
                  L_inner body xs) with (t := (b, s0)) (s := s0) (h := h)
        as (t' & h' & -> & Ht & Hbk & ->)
  end.
  - intros i [bk t] s h1 Hi%range_down_in (-> & [Hl Hbytes] & ->).
    cbn [fst snd] in *.
    assert (byte (bk !!! Z.to_nat i)) as Hbi
        by (apply Forall_byte_lookup_total; [assumption | lia]).
    unfold bindM at 1.
    rewrite (run_item _ blk bk i (bk !!! Z.to_nat i))
      by (auto using ints_at_insert; apply getitem_total; lia).
    unfold bindM at 1.
    set (bk' := <[Z.to_nat (i + 1) := bk !!! Z.to_nat i]> bk).
    rewrite (run_set_item _ blk bk bk')
      by (auto using ints_at_insert; apply setitem_insert; lia).
    rewrite insert_insert_eq.
    unfold bindM at 1.
    rewrite (run_item _ blk bk' i (bk !!! Z.to_nat i));
      [|apply ints_at_insert
       |unfold bk'; rewrite getitem_total by (rewrite length_insert; lia);
        now rewrite list_lookup_total_insert_ne by lia].
    rewrite run_GF_LC; [|now apply insert_subseteq_r | exact Hbi | lia].
    unfold ret. eexists _, _. split; [reflexivity|].
    subst bk'. cbn [L_inner fst snd].
    split; [reflexivity|]. split; [|reflexivity].
    split; [rewrite length_insert; lia | now apply Forall_insert].
  - split; [reflexivity|]. split; [now split|].
    symmetry. apply insert_id. now apply ints_at_Some.
  - destruct (fold_left _ _ _) as [bk t] eqn:Hfold. cbn [fst snd] in *.
    subst t'. destruct Hbk as [Hl _].
    rewrite (run_set_item _ blk bk (<[0%nat := t]> bk) 0 t)
      by (auto using ints_at_insert; apply (setitem_insert bk 0); lia).
    rewrite insert_insert_eq.
    now rewrite (L_inner_fold b bk t Hlen Hfold).
Qed.

Lemma run_Linv_round (h : heap) (blk : loc) (b : list Z) :
  h0 ⊆ h -> h0 !! blk = None -> ints_at h blk = Some b -> bytes 16 b ->
  Store.Linv_round g blk h = (Ok tt, <[blk := OInts (Linv_step b)]> h).
Proof.
  intros Hh Hblk Hb [Hlen HB]. unfold Store.Linv_round.
  unfold bindM at 1.
  rewrite (run_item h blk b 0 (b !!! 0%nat) Hb)
    by (apply (getitem_total b 0); lia).
  unfold bindM at 1.
  match goal with
  | |- context [forM ?xs ?body ?s0 h] =>
      destruct (forM_fold
                  (fun (st : list Z * Z) t h' =>
                     t = snd st /\ bytes 16 (fst st) /\
                     h' = <[blk := OInts (fst st)]> h)
                  Linv_inner body xs) with (t := (b, s0)) (s := s0) (h := h)
        as (t' & h' & -> & Ht & Hbk & ->)
  end.
  - intros i [bk t] s h1 Hi%range_up_in (-> & [Hl Hbytes] & ->).
    cbn [fst snd] in *.
    assert (byte (bk !!! Z.to_nat (i + 1))) as Hbi
        by (apply Forall_byte_lookup_total; [assumption | lia]).
    unfold bindM at 1.
    rewrite (run_item _ blk bk (i + 1) (bk !!! Z.to_nat (i + 1)))
      by (auto using ints_at_insert; apply getitem_total; lia).
    unfold bindM at 1.
    set (bk' := <[Z.to_nat i := bk !!! Z.to_nat (i + 1)]> bk).
    rewrite (run_set_item _ blk bk bk')
      by (auto using ints_at_insert; apply setitem_insert; lia).
    rewrite insert_insert_eq.
    unfold bindM at 1.
    rewrite (run_item _ blk bk' i (bk !!! Z.to_nat (i + 1)));
      [|apply ints_at_insert
       |unfold bk'; rewrite getitem_total by (rewrite length_insert; lia);
        now rewrite list_lookup_total_insert_eq by lia].
    rewrite run_GF_LC; [|now apply insert_subseteq_r | exact Hbi | lia].
    unfold ret. eexists _, _. split; [reflexivity|].
    subst bk'. cbn [Linv_inner fst snd].
    split; [reflexivity|]. split; [|reflexivity].
    split; [rewrite length_insert; lia | now apply Forall_insert].
  - split; [reflexivity|]. split; [now split|].
    symmetry. apply insert_id. now apply ints_at_Some.
  - destruct (fold_left _ _ _) as [bk t] eqn:Hfold. cbn [fst snd] in *.
    subst t'. destruct Hbk as [Hl _].
    rewrite (run_set_item _ blk bk (<[15%nat := t]> bk) 15 t)
      by (auto using ints_at_insert; apply (setitem_insert bk 15); lia).
    rewrite insert_insert_eq.
    now rewrite (Linv_inner_fold b bk t Hlen Hfold).
Qed.

(** Sixteen rounds in place: only the object [blk] changes. *)
Lemma run_rounds (round : loc -> M unit) (step : list Z -> list Z)
      (xs : list Z) (h : heap) (blk : loc) (b : list Z) :
  (forall x, bytes 16 x -> bytes 16 (step x)) ->
  (forall h' x, h0 ⊆ h' -> ints_at h' blk = Some x -> bytes 16 x ->
                round blk h' = (Ok tt, <[blk := OInts (step x)]> h')) ->
  h0 ⊆ h -> h0 !! blk = None -> ints_at h blk = Some b -> bytes 16 b ->
  forM xs (fun _ _ => round blk) tt h
  = (Ok tt, <[blk := OInts (Nat.iter (length xs) step b)]> h).
Proof.
  intros Hstep Hround Hh Hblk Hb HB.
  destruct (forM_invariant
              (fun k (_ : unit) h' =>
                 h' = <[blk := OInts (Nat.iter k step b)]> h)
              (fun _ _ => round blk) xs) with (s := tt) (h := h)
    as ([] & h' & -> & ->); [| |reflexivity].
  - intros k x [] h1 _ ->.
    rewrite (Hround _ (Nat.iter k step b));
      [|now apply insert_subseteq_r | apply ints_at_insert
       |now apply iter_bytes].
    rewrite insert_insert_eq. eexists tt, _. split; reflexivity.
  - symmetry. apply insert_id. now apply ints_at_Some.
Qed.

Lemma run_L (h : heap) (blk : loc) (b : list Z) :
  h0 ⊆ h -> h0 !! blk = None -> ints_at h blk = Some b -> bytes 16 b ->
  Store.L g blk L_rounds_default h
  = (Ok blk, <[blk := OInts (Nat.iter 16 L_step b)]> h).
Proof.
  intros Hh Hblk Hb HB. unfold Store.L, bindM.
  rewrite (run_rounds (Store.L_round g) L_step _ h blk b);
    auto using L_step_bytes.
  intros h' x Hh' Hx HX. now apply run_L_round.
Qed.

Lemma run_Linv (h : heap) (blk : loc) (b : list Z) :
  h0 ⊆ h -> h0 !! blk = None -> ints_at h blk = Some b -> bytes 16 b ->
  Store.Linv g blk h
  = (Ok blk, <[blk := OInts (Nat.iter 16 Linv_step b)]> h).
Proof.
  intros Hh Hblk Hb HB. unfold Store.Linv, bindM.
  rewrite (run_rounds (Store.Linv_round g) Linv_step _ h blk b);
    auto using Linv_step_bytes.
  intros h' x Hh' Hx HX. now apply run_Linv_round.
Qed.

(** A new object extends the store. *)
Lemma run_alloc (h : heap) (b : list Z) :
  exists l,
    alloc (OInts b) h = (Ok l, <[l := OInts b]> h) /\
    h !! l = None /\ h ⊆ <[l := OInts b]> h.
Proof.
  exists (fresh (dom h)).
  assert (h !! fresh (dom h) = None) as Hf by now apply fresh_not_in.
  split; [reflexivity|]. split; [exact Hf | now apply insert_subseteq].
Qed.

Lemma run_copy (h : heap) (l : loc) (b : list Z) :
  ints_at h l = Some b ->
  exists l' h',
    bytearray_of l h = (Ok l', h') /\ h ⊆ h' /\ ints_at h' l' = Some b /\
    h !! l' = None.
Proof.
  intros Hl. destruct (run_alloc h b) as (l' & Ha & Hnone & Hsub).
  exists l', (<[l' := OInts b]> h). unfold bytearray_of, bindM.
  rewrite (run_ints_of h l b Hl). auto using ints_at_insert.
Qed.

Lemma run_strxor (h : heap) (la lb : loc) (a b : list Z) :
  ints_at h la = Some a -> ints_at h lb = Some b ->
  exists l' h',
    Store.strxor la lb h = (Ok l', h') /\ h ⊆ h' /\
    ints_at h' l' = Some (strxor a b).
Proof.
  intros Ha Hb. destruct (run_alloc h (strxor a b)) as (l' & Hal & _ & Hsub).
  exists l', (<[l' := OInts (strxor a b)]> h). unfold Store.strxor, bindM.
  rewrite (run_ints_of h la a Ha), (run_ints_of h lb b Hb).
  auto using ints_at_insert.
Qed.

Lemma run_lp (h : heap) (l : loc) (b : list Z) :
  h0 ⊆ h -> ints_at h l = Some b -> bytes 16 b ->
  exists l' h',
    Store.lp g l h = (Ok l', h') /\ h ⊆ h' /\ ints_at h' l' = Some (LP b).
Proof.
  intros Hh Hl HB. destruct loaded as (_ & HPI & _).
  unfold Store.lp, bindM. rewrite (run_ints_of h l b Hl).
  rewrite (comprehensionM_map _ PI_at).
  2:{ intros v Hv. apply (run_item h _ PI); [now apply (ints_at_weaken h0)|].
      apply PI_at_ok. destruct HB as [_ HB]. rewrite Forall_forall in HB.
      now apply HB, list_elem_of_In. }
  destruct (run_alloc h (map PI_at b)) as (new & -> & Hnew & Hsub).
  rewrite (run_L _ new (map PI_at b));
    [|now transitivity h
     |destruct (h0 !! new) eqn:E; [|reflexivity];
      now rewrite (lookup_weaken _ _ _ _ E Hh) in Hnew
     |apply ints_at_insert | now apply map_PI_bytes].
  rewrite insert_insert_eq. eexists _, _. split; [reflexivity|].
  split; [now apply insert_subseteq | apply ints_at_insert].
Qed.

(** One round of [decrypt] after the XOR and the copy. *)
Lemma run_lpinv (h : heap) (l : loc) (b : list Z) :
  h0 ⊆ h -> h0 !! l = None -> ints_at h l = Some b -> bytes 16 b ->
  exists l' h',
    (x <~ Store.Linv g l ;;
     c <~ ints_of x ;;
     vs <~ comprehensionM (fun v => item (g_PIinv g) v) c ;;
     alloc (OInts vs)) h = (Ok l', h') /\
    h0 ⊆ h' /\ ints_at h' l' = Some (LPinv b).
Proof.
  intros Hh Hnone Hl HB. destruct loaded as (_ & _ & HPIinv & _).
  assert (bytes 16 (Nat.iter 16 Linv_step b)) as Hit
      by (apply iter_bytes; [exact Linv_step_bytes | exact HB]).
  unfold bindM at 1. rewrite (run_Linv h l b) by assumption.
  set (h1 := <[l := OInts (Nat.iter 16 Linv_step b)]> h).
  assert (h0 ⊆ h1) as Hh1 by now apply insert_subseteq_r.
  unfold bindM at 1.
  rewrite (run_ints_of h1 l (Nat.iter 16 Linv_step b))
    by apply ints_at_insert.
  unfold bindM at 1.
  rewrite (comprehensionM_map _ PIinv_at).
  2:{ intros v Hv.
      apply (run_item h1 _ PIinv); [now apply (ints_at_weaken h0)|].
      apply PIinv_at_ok. destruct Hit as [_ Hit].
      rewrite Forall_forall in Hit. now apply Hit, list_elem_of_In. }
  destruct (run_alloc h1 (map PIinv_at (Nat.iter 16 Linv_step b)))
    as (new & -> & Hnew & Hsub).
  eexists _, _. split; [reflexivity|].
  split; [now transitivity h1 | apply ints_at_insert].
Qed.

Ltac run_with H := unfold bindM at 1; rewrite H; cbv beta iota.

Variable self : Store.t.
Variable ks : list (list Z).
Hypothesis ks_table : table_at h0 (Store.ks self) = Some ks.
Hypothesis ks_length : length ks = 10%nat.
Hypothesis ks_bytes : Forall (bytes 16) ks.

(** [self.ks[i]] read from a store that extends [h0]. *)
Lemma run_round_key (h : heap) (i : nat) :
  h0 ⊆ h -> (i < 10)%nat ->
  exists kl,
    ref_item (Store.ks self) (Z.of_nat i) h = (Ok kl, h) /\
    ints_at h kl = Some (ks !!! i).
Proof.
  intros Hh Hi.
  apply (run_ref_item h (Store.ks self) ks);
    [now apply (table_at_weaken h0) | lia |].
  rewrite getitem_total by lia. now rewrite Nat2Z.id.
Qed.

Lemma run_encrypt (blk : loc) (b : list Z) :
  ints_at h0 blk = Some b -> bytes 16 b ->
  exists r h',
    Store.encrypt g self blk h0 = (Ok r, h') /\ h0 ⊆ h' /\
    ints_at h' r = Some (encrypt_value ks b).
Proof.
  intros Hblk HB. unfold Store.encrypt.
  destruct (run_copy h0 blk b Hblk) as (l1 & h1 & Hc & Hsub1 & Hl1 & _).
  run_with Hc. unfold bindM at 1.
  match goal with
  | |- context [forM ?xs ?body l1 h1] =>
      destruct (forM_invariant
                  (fun k l h =>
                     h0 ⊆ h /\ ints_at h l = Some (encrypt_rounds ks k b))
                  body xs) with (s := l1) (h := h1)
        as (l2 & h2 & -> & Hsub2 & Hl2)
  end.
  - intros k x l h [-> Hk]%range_up_lookup [Hsub Hl]. simpl in Hk.
    change (0 + Z.of_nat k) with (Z.of_nat k).
    destruct (run_round_key h k Hsub ltac:(lia)) as (kl & Hrl & Hkl).
    run_with Hrl.
    destruct (run_strxor h kl l _ _ Hkl Hl) as (x & hx & Hx & Hsubx & Hxat).
    run_with Hx.
    destruct (run_copy hx x _ Hxat) as (x' & hx' & Hx' & Hsubx' & Hxat' & _).
    run_with Hx'.
    destruct (run_lp hx' x' (strxor (ks !!! k) (encrypt_rounds ks k b)))
      as (l' & h' & Hlp & Hsub' & Hl');
      [now do 2 (etransitivity; [|eassumption]) | exact Hxat' | |].
    { apply strxor_bytes;
        [apply round_key_bytes | apply encrypt_rounds_bytes]; auto; lia. }
    rewrite Hlp. eexists _, _. split; [reflexivity|].
    split; [|exact Hl'].
    now do 3 (etransitivity; [|eassumption]).
  - split; [exact Hsub1 | exact Hl1].
  - cbv beta iota. simpl length in *.
    destruct (run_round_key h2 9 Hsub2 ltac:(lia)) as (kl & Hrl & Hkl).
    change (Z.of_nat 9) with 9 in Hrl. run_with Hrl.
    destruct (run_strxor h2 kl l2 _ _ Hkl Hl2) as (x & hx & Hx & Hsubx & Hxat).
    run_with Hx.
    destruct (run_copy hx x _ Hxat) as (r & h' & Hr & Hsubr & Hrat & _).
    unfold bytes_of. unfold bytearray_of in Hr. rewrite Hr.
    eexists _, _. split; [reflexivity|]. split; [|exact Hrat].
    now do 2 (etransitivity; [|eassumption]).
Qed.

Lemma run_decrypt (blk : loc) (b : list Z) :
  ints_at h0 blk = Some b -> bytes 16 b ->
  exists r h',
    Store.decrypt g self blk h0 = (Ok r, h') /\ h0 ⊆ h' /\
    ints_at h' r = Some (decrypt_value ks b).
Proof.
  intros Hblk HB. unfold Store.decrypt.
  destruct (run_copy h0 blk b Hblk) as (l1 & h1 & Hc & Hsub1 & Hl1 & _).
  run_with Hc. unfold bindM at 1.
  match goal with
  | |- context [forM ?xs ?body l1 h1] =>
      destruct (forM_invariant
                  (fun k l h =>
                     h0 ⊆ h /\ ints_at h l = Some (decrypt_rounds ks k b))
                  body xs) with (s := l1) (h := h1)
        as (l2 & h2 & -> & Hsub2 & Hl2)
  end.
  - intros k x l h [-> Hk]%range_down_lookup [Hsub Hl]. simpl in Hk.
    replace (9 - Z.of_nat k) with (Z.of_nat (9 - k)) by lia.
    destruct (run_round_key h (9 - k) Hsub ltac:(lia)) as (kl & Hrl & Hkl).
    run_with Hrl.
    destruct (run_strxor h kl l _ _ Hkl Hl) as (x & hx & Hx & Hsubx & Hxat).
    run_with Hx.
    destruct (run_copy hx x _ Hxat)
      as (x' & hx' & Hx' & Hsubx' & Hxat' & Hnone).
    run_with Hx'.
    destruct (run_lpinv hx' x'
                (strxor (ks !!! (9 - k)%nat) (decrypt_rounds ks k b)))
      as (l' & h' & Hlp & Hsub' & Hl');
      [now do 2 (etransitivity; [|eassumption]) | | exact Hxat' | |].
    { destruct (h0 !! x') eqn:E; [|reflexivity].
      assert (h0 ⊆ hx) as Hs by now transitivity h.
      now rewrite (lookup_weaken _ _ _ _ E Hs) in Hnone. }
    { apply strxor_bytes;
        [apply round_key_bytes | apply decrypt_rounds_bytes]; auto; lia. }
    rewrite Hlp. eexists _, _. split; [reflexivity|].
    split; [exact Hsub' | exact Hl'].
  - split; [exact Hsub1 | exact Hl1].
  - cbv beta iota. simpl length in *.
    destruct (run_round_key h2 0 Hsub2 ltac:(lia)) as (kl & Hrl & Hkl).
    change (Z.of_nat 0) with 0 in Hrl. run_with Hrl.
    destruct (run_strxor h2 kl l2 _ _ Hkl Hl2) as (x & hx & Hx & Hsubx & Hxat).
    run_with Hx.
    destruct (run_copy hx x _ Hxat) as (r & h' & Hr & Hsubr & Hrat & _).
    unfold bytes_of. unfold bytearray_of in Hr. rewrite Hr.
    eexists _, _. split; [reflexivity|]. split; [|exact Hrat].
    now do 2 (etransitivity; [|eassumption]).
Qed.

End store_refinement.

(** What a call on a loaded module, an instance with round keys [ks] and
    an input block [b] must find again in the store it leaves. *)
Lemma preserved_intro (g : globals) (self : Store.t) (blk : loc)
      (ks : list (list Z)) (b : list Z) (h h' : heap) :
  module_loaded g h -> table_at h (Store.ks self) = Some ks ->
  ints_at h blk = Some b -> h ⊆ h' ->
  preserved g self blk ks b h h'.
Proof.
  intros Hg Hks Hb Hsub. unfold preserved.
  split; [now apply unchanged_subseteq|].
  split; [now apply (module_loaded_weaken g h)|].
  split; [now apply (table_at_weaken h) | now apply (ints_at_weaken h)].
Qed.

(** C10: whatever the store and the arguments, and also when the call
    raises, encrypt and decrypt leave every object of the store as it
    was. On a store with the module loaded, an instance with ten
    16-byte round keys and a 16-byte input block, each call returns a
    new object holding its result, and the round-key list self.ks, the
    tables LC, PI, PIinv, GF and C and the input block are found
    unchanged in the store it leaves, so the instance can be called
    again. *)
Theorem calls_leave_store_unchanged :
  (forall g self blk (h : heap),
      unchanged h (snd (Store.encrypt g self blk h)) /\
      unchanged h (snd (Store.decrypt g self blk h))) /\
  (forall g self blk (h : heap) ks b,
      module_loaded g h ->
      table_at h (Store.ks self) = Some ks ->
      length ks = 10%nat -> Forall (bytes 16) ks ->
      ints_at h blk = Some b -> bytes 16 b ->
      (exists r h',
          Store.encrypt g self blk h = (Ok r, h') /\
          ints_at h' r = Some (encrypt_value ks b) /\
          preserved g self blk ks b h h') /\
      (exists r h',
          Store.decrypt g self blk h = (Ok r, h') /\
          ints_at h' r = Some (decrypt_value ks b) /\
          preserved g self blk ks b h h')).
Proof.
  split.
  - intros g self blk h. split; apply unchanged_subseteq.
    + now apply (frames_encrypt h g self blk h).
    + now apply (frames_decrypt h g self blk h).
  - intros g self blk h ks b Hg Hks Hlen Hbytes Hb HB. split.
    + destruct (run_encrypt g h Hg self ks Hks Hlen Hbytes blk b Hb HB)
        as (r & h' & Hrun & Hsub & Hr).
      exists r, h'. auto using preserved_intro.
    + destruct (run_decrypt g h Hg self ks Hks Hlen Hbytes blk b Hb HB)
        as (r & h' & Hrun & Hsub & Hr).
      exists r, h'. auto using preserved_intro.
Qed.

Lemma kat_store_loaded :
  module_loaded kat_globals kat_store /\
  table_at kat_store (Store.ks kat_instance) = Some kat_round_keys /\
  ints_at kat_store kat_block = Some kat_plain.
Proof.
  unfold module_loaded.
  split; [split; [|split; [|split; [|split]]] | split];
    vm_compute; reflexivity.
Qed.

Lemma kat_round_keys_bytes :
  length kat_round_keys = 10%nat /\ Forall (bytes 16) kat_round_keys.
Proof.
  split; [reflexivity|].
  apply Forall_forall. intros k Hk%list_elem_of_In.
  apply bytesb_bytes.
  assert (forallb (bytesb 16) kat_round_keys = true) as H
      by (vm_compute; reflexivity).
  rewrite forallb_forall in H. now apply H.
Qed.

Lemma calls_leave_store_unchanged_witness :
  module_loaded kat_globals kat_store /\
  (exists r h',
      Store.encrypt kat_globals kat_instance kat_block kat_store = (Ok r, h') /\
      ints_at h' r = Some (encrypt_value kat_round_keys kat_plain) /\
      preserved kat_globals kat_instance kat_block kat_round_keys kat_plain
                kat_store h').
Proof.
  destruct kat_store_loaded as (Hg & Hks & Hb).
  destruct kat_round_keys_bytes as [Hlen Hbytes].
  split; [exact Hg|].
  exact (proj1 (proj2 calls_leave_store_unchanged
                  kat_globals kat_instance kat_block kat_store
                  kat_round_keys kat_plain
                  Hg Hks Hlen Hbytes Hb kat_plain_bytes)).
Defined.

(** * Further properties of the module *)

(** ** The loop of the field multiplier *)







(** ** The multiplier distributes over XOR *)

Lemma gf_shift_check_all :
  forallb (fun a => forallb (gf_shift_check a) (range 0 256 1))
          (range 0 256 1) = true.
Proof. vm_compute. reflexivity. Qed.

Lemma gf_shift_spec (a a' : Z) :
  byte a -> byte a' ->
  byte (gf_shift a) /\
  gf_shift (Z.lxor a a') = Z.lxor (gf_shift a) (gf_shift a').
Proof.
  intros Ha Ha'.
  pose proof (byte_forallb _ gf_shift_check_all a Ha) as H. cbv beta in H.
  pose proof (byte_forallb _ H a' Ha') as H'. unfold gf_shift_check in H'.
  apply andb_prop in H' as [Hb He].
  split; [now apply byteb_byte | now apply Z.eqb_eq].
Qed.

Lemma gf_loop_step (fuel : nat) (a b c : Z) :
  b <> 0 ->
  gf_loop (S fuel) a b c
  = gf_loop fuel (gf_shift a) (Z.shiftr b 1)
            (if Z.land b 1 =? 0 then c else Z.lxor c a).
Proof.
  intros Hb. cbn [gf_loop]. destruct (b =? 0) eqn:E; [lia | reflexivity].
Qed.

(** The loop is additive in the pair (a, c). *)
Lemma gf_loop_additive (fuel : nat) (a a' b c c' x y : Z) :
  byte a -> byte a' ->
  gf_loop fuel a b c = Ok x -> gf_loop fuel a' b c' = Ok y ->
  gf_loop fuel (Z.lxor a a') b (Z.lxor c c') = Ok (Z.lxor x y).
Proof.
  revert a a' b c c'. induction fuel as [|fuel IH]; intros a a' b c c' Ha Ha'.
  - cbn [gf_loop]. destruct (b =? 0); [|discriminate].
    now intros [= <-] [= <-].
  - destruct (Z.eq_dec b 0) as [->|Hb].
    { cbn [gf_loop]. simpl (0 =? 0). cbv iota. now intros [= <-] [= <-]. }
    rewrite !gf_loop_step by exact Hb. intros Hx Hy.
    destruct (gf_shift_spec a a' Ha Ha') as [Hsa Hadd].
    destruct (gf_shift_spec a' a Ha' Ha) as [Hsa' _].
    rewrite Hadd.
    pose proof (IH _ _ _ _ _ Hsa Hsa' Hx Hy) as H.
    destruct (Z.land b 1 =? 0); [exact H|].
    replace (Z.lxor (Z.lxor c c') (Z.lxor a a'))
      with (Z.lxor (Z.lxor c a) (Z.lxor c' a')); [exact H|].
    rewrite !Z.lxor_assoc. f_equal.
    rewrite <- !Z.lxor_assoc. f_equal. apply Z.lxor_comm.
Qed.

Lemma gf_value_ok (a b : Z) :
  byte a -> byte b ->
  gf a b = Ok (gf_value a b) /\ byte (gf_value a b) /\
  gf_value b a = gf_value a b.
Proof.
  intros Ha Hb. destruct (GF_row_spec a Ha) as (row & _ & _ & Hspec).
  destruct (Hspec b Hb) as (Hab & Hc & Hba & _).
  split; [exact Hab|]. split; [exact Hc|].
  unfold gf_value at 1. now rewrite Hba.
Qed.

Lemma gf_value_add_l (a a' b : Z) :
  byte a -> byte a' -> byte b ->
  gf_value (Z.lxor a a') b = Z.lxor (gf_value a b) (gf_value a' b).
Proof.
  intros Ha Ha' Hb.
  destruct (gf_value_ok a b Ha Hb) as (H1 & _ & _).
  destruct (gf_value_ok a' b Ha' Hb) as (H2 & _ & _).
  unfold gf in H1, H2.
  pose proof (gf_loop_additive _ a a' b 0 0 _ _ Ha Ha' H1 H2) as H.
  unfold gf_value at 1, gf. change (Z.lxor 0 0) with 0 in H. now rewrite H.
Qed.

Lemma gf_value_add_r (a b b' : Z) :
  byte a -> byte b -> byte b' ->
  gf_value a (Z.lxor b b') = Z.lxor (gf_value a b) (gf_value a b').
Proof.
  intros Ha Hb Hb'.
  destruct (gf_value_ok (Z.lxor b b') a (byte_lxor _ _ Hb Hb') Ha)
    as (_ & _ & ->).
  rewrite gf_value_add_l by assumption.
  destruct (gf_value_ok a b Ha Hb) as (_ & _ & ->).
  now destruct (gf_value_ok a b' Ha Hb') as (_ & _ & ->).
Qed.

(** X2: on bytes, gf distributes over XOR in each argument. *)
Theorem gf_distributes_over_xor (a b c : Z) :
  byte a -> byte b -> byte c ->
  exists x y,
    gf a c = Ok x /\ gf b c = Ok y /\
    gf (Z.lxor a b) c = Ok (Z.lxor x y) /\
    gf c (Z.lxor a b) = Ok (Z.lxor x y).
Proof.
  intros Ha Hb Hc. exists (gf_value a c), (gf_value b c).
  pose proof (byte_lxor a b Ha Hb) as Hab.
  destruct (gf_value_ok a c Ha Hc) as (H1 & _ & _).
  destruct (gf_value_ok b c Hb Hc) as (H2 & _ & _).
  destruct (gf_value_ok (Z.lxor a b) c Hab Hc) as (H3 & _ & H4).
  destruct (gf_value_ok c (Z.lxor a b) Hc Hab) as (H5 & _ & _).
  rewrite H1, H2, H3, H5, H4, gf_value_add_l by assumption. auto.
Qed.

Lemma gf_distributes_over_xor_witness :
  byte 87 /\ byte 131 /\ byte 19 /\
  exists x y,
    gf 87 19 = Ok x /\ gf 131 19 = Ok y /\
    gf (Z.lxor 87 131) 19 = Ok (Z.lxor x y) /\
    gf 19 (Z.lxor 87 131) = Ok (Z.lxor x y).
Proof.
  assert (byte 87 /\ byte 131 /\ byte 19) as (H1 & H2 & H3)
      by (unfold byte; lia).
  split; [exact H1|]. split; [exact H2|]. split; [exact H3|].
  exact (gf_distributes_over_xor 87 131 19 H1 H2 H3).
Defined.

(** ** The multiplier is associative, and bytes form a field *)

Lemma byte_bits_check_all : forallb byte_bits_check (range 0 256 1) = true.
Proof. vm_compute. reflexivity. Qed.

Lemma byte_basis_byte (e : Z) : In e byte_basis -> byte e.
Proof. unfold byte_basis, byte. simpl. intuition lia. Qed.

(** A property of bytes that holds of 0 and of the one-bit bytes and is
    kept by XOR holds of every byte. *)
Lemma byte_xor_induction (P : Z -> Prop) :
  P 0 ->
  (forall e, In e byte_basis -> P e) ->
  (forall x y, byte x -> byte y -> P x -> P y -> P (Z.lxor x y)) ->
  forall x, byte x -> P x.
Proof.
  intros H0 Hbasis Hxor x Hx.
  pose proof (byte_forallb _ byte_bits_check_all x Hx) as H.
  unfold byte_bits_check in H. apply andb_prop in H as [Hsum Hbits].
  apply Z.eqb_eq in Hsum. rewrite <- Hsum.
  assert (Forall (fun v => byte v /\ P v) (byte_bits x)) as Hall.
  { unfold byte_bits, byte_basis in *.
    cbn [map zip zip_with forallb fst snd] in Hbits |- *.
    repeat (apply andb_prop in Hbits as [Hb Hbits];
            apply List.Forall_cons;
            [apply orb_prop in Hb as [->%Z.eqb_eq | ->%Z.eqb_eq];
             [split; [unfold byte; lia | exact H0]
             |split; [unfold byte; lia
                     |apply Hbasis; simpl;
                      repeat first [left; reflexivity | right]]]
            |clear Hb]).
    apply List.Forall_nil. }
  clear Hsum Hbits.
  assert (byte (fold_right Z.lxor 0 (byte_bits x)) /\
          P (fold_right Z.lxor 0 (byte_bits x))) as [_ HP]; [|exact HP].
  induction Hall as [|v l [Hv HPv] _ [IHb IHP]]; simpl.
  - split; [unfold byte; lia | exact H0].
  - split; [now apply byte_lxor | now apply Hxor].
Qed.

Lemma gf_value_0_l (b : Z) : byte b -> gf_value 0 b = 0.
Proof.
  intros Hb. rewrite <- (Z.lxor_nilpotent 0) at 1.
  rewrite gf_value_add_l by (auto; unfold byte; lia).
  apply Z.lxor_nilpotent.
Qed.

Lemma gf_value_0_r (a : Z) : gf_value a 0 = 0.
Proof. reflexivity. Qed.

Lemma gf_value_byte (a b : Z) : byte a -> byte b -> byte (gf_value a b).
Proof. intros Ha Hb. apply gf_value_ok; assumption. Qed.

Lemma gf_assoc_basis :
  forallb (fun a =>
             forallb (fun b => forallb (gf_assoc_check a b) byte_basis)
                     byte_basis)
          byte_basis = true.
Proof. vm_compute. reflexivity. Qed.

Lemma gf_value_assoc (a b c : Z) :
  byte a -> byte b -> byte c ->
  gf_value (gf_value a b) c = gf_value a (gf_value b c).
Proof.
  intros Ha Hb Hc. revert b Hb c Hc.
  pattern a. apply byte_xor_induction; [| | |exact Ha]; clear a Ha.
  - intros b Hb c Hc.
    rewrite !gf_value_0_l; auto using gf_value_byte.
  - intros a Hain b Hb. pose proof (byte_basis_byte a Hain) as Ha.
    pattern b. apply byte_xor_induction; [| | |exact Hb]; clear b Hb.
    + intros c Hc. rewrite gf_value_0_r, !gf_value_0_l by assumption.
      now rewrite gf_value_0_r.
    + intros b Hbin c Hc. pose proof (byte_basis_byte b Hbin) as Hb.
      pattern c. apply byte_xor_induction; [| | |exact Hc]; clear c Hc.
      * now rewrite !gf_value_0_r.
      * intros c Hcin. pose proof gf_assoc_basis as H.
        rewrite forallb_forall in H. specialize (H a Hain).
        rewrite forallb_forall in H. specialize (H b Hbin).
        rewrite forallb_forall in H. specialize (H c Hcin).
        now apply Z.eqb_eq in H.
      * intros x y Hx Hy IHx IHy.
        rewrite !gf_value_add_r by auto using gf_value_byte.
        now rewrite IHx, IHy.
    + intros x y Hx Hy IHx IHy c Hc.
      rewrite gf_value_add_r, gf_value_add_l by auto using gf_value_byte.
      rewrite gf_value_add_l, gf_value_add_r by auto using gf_value_byte.
      now rewrite IHx, IHy.
  - intros x y Hx Hy IHx IHy b Hb c Hc.
    rewrite gf_value_add_l by assumption.
    rewrite !gf_value_add_l by auto using gf_value_byte.
    now rewrite IHx, IHy.
Qed.

(** X3: on bytes, gf is associative. *)
Theorem gf_associative (a b c : Z) :
  byte a -> byte b -> byte c ->
  exists ab bc r,
    gf a b = Ok ab /\ gf b c = Ok bc /\ gf ab c = Ok r /\ gf a bc = Ok r.
Proof.
  intros Ha Hb Hc.
  exists (gf_value a b), (gf_value b c), (gf_value (gf_value a b) c).
  pose proof (gf_value_byte a b Ha Hb) as Hab.
  pose proof (gf_value_byte b c Hb Hc) as Hbc.
  split; [now apply gf_value_ok|]. split; [now apply gf_value_ok|].
  split; [now apply gf_value_ok|].
  rewrite gf_value_assoc by assumption. now apply gf_value_ok.
Qed.

Lemma gf_associative_witness :
  byte 87 /\ byte 131 /\ byte 19 /\
  exists ab bc r,
    gf 87 131 = Ok ab /\ gf 131 19 = Ok bc /\
    gf ab 19 = Ok r /\ gf 87 bc = Ok r.
Proof.
  assert (byte 87 /\ byte 131 /\ byte 19) as (H1 & H2 & H3)
      by (unfold byte; lia).
  split; [exact H1|]. split; [exact H2|]. split; [exact H3|].
  exact (gf_associative 87 131 19 H1 H2 H3).
Defined.

Lemma gf_inverse_check_all : forallb gf_inverse_check (range 0 256 1) = true.
Proof. vm_compute. reflexivity. Qed.

Lemma gf_inverse_spec (a : Z) :
  byte a -> a <> 0 ->
  byte (gf_inverse a) /\ gf_value a (gf_inverse a) = 1.
Proof.
  intros Ha Hne. pose proof (byte_forallb _ gf_inverse_check_all a Ha) as H.
  unfold gf_inverse_check in H.
  apply orb_prop in H as [H|H]; [apply Z.eqb_eq in H; contradiction|].
  apply andb_prop in H as [Hb H1].
  split; [now apply byteb_byte | now apply Z.eqb_eq].
Qed.

(** X4: the bytes with XOR and gf form a field: every byte but 0 has an
    inverse, and a product is 0 only if a factor is. *)
Theorem gf_field :
  (forall a, byte a -> a <> 0 ->
     exists b, byte b /\ gf a b = Ok 1 /\ gf b a = Ok 1) /\
  (forall a b, byte a -> byte b -> gf a b = Ok 0 -> a = 0 \/ b = 0).
Proof.
  split.
  - intros a Ha Hne. destruct (gf_inverse_spec a Ha Hne) as [Hb H1].
    exists (gf_inverse a). split; [exact Hb|].
    destruct (gf_value_ok a _ Ha Hb) as (Hab & _ & Hcomm).
    destruct (gf_value_ok _ a Hb Ha) as (Hba & _ & _).
    rewrite Hab, Hba, Hcomm, H1. auto.
  - intros a b Ha Hb Hab.
    destruct (Z.eq_dec a 0) as [->|Hne]; [now left | right].
    destruct (gf_inverse_spec a Ha Hne) as [Hi H1].
    destruct (gf_value_ok a b Ha Hb) as (Hab' & _ & _).
    rewrite Hab in Hab'. injection Hab' as Hab'.
    destruct (gf_value_ok a _ Ha Hi) as (_ & _ & Hcomm).
    assert (gf_value 1 b = b) as H1b.
    { destruct (gf_value_ok b 1 Hb ltac:(unfold byte; lia)) as (_ & _ & ->).
      unfold gf_value. now rewrite gf_one_r. }
    rewrite <- H1b, <- H1, <- Hcomm.
    rewrite gf_value_assoc by assumption.
    now rewrite <- Hab', gf_value_0_r.
Qed.

Lemma gf_field_witness :
  byte 87 /\ 87 <> 0 /\
  exists b, byte b /\ gf 87 b = Ok 1 /\ gf b 87 = Ok 1.
Proof.
  assert (byte 87) as H by (unfold byte; lia).
  split; [exact H|]. split; [lia|].
  exact (proj1 gf_field 87 H ltac:(lia)).
Defined.

(** ** The linear transform is additive *)

Lemma gmul_gf_value (x y : Z) : byte x -> byte y -> gmul x y = gf_value x y.
Proof.
  intros Hx Hy. destruct (GF_row_spec x Hx) as (row & Hrow & _ & Hspec).
  destruct (Hspec y Hy) as (_ & _ & _ & Hv).
  unfold gmul, GF_lookup. rewrite Hrow. cbn [bind].
  now rewrite (getitem_lookup row y _ (proj1 Hy) Hv).
Qed.

Lemma gmul_add_l (x x' c : Z) :
  byte x -> byte x' -> byte c ->
  gmul (Z.lxor x x') c = Z.lxor (gmul x c) (gmul x' c).
Proof.
  intros Hx Hx' Hc.
  rewrite !gmul_gf_value by auto using byte_lxor.
  now apply gf_value_add_l.
Qed.

Lemma fold_left_lxor_sum (l : list Z) (x : Z) :
  fold_left Z.lxor l x = Z.lxor x (fold_right Z.lxor 0 l).
Proof.
  revert x. induction l as [|a l IH]; intros x; simpl.
  - now rewrite Z.lxor_0_r.
  - now rewrite IH, Z.lxor_assoc.
Qed.

Lemma lxor_sum_rev (l : list Z) :
  fold_right Z.lxor 0 (rev l) = fold_right Z.lxor 0 l.
Proof.
  induction l as [|a l IH]; simpl; [reflexivity|].
  rewrite fold_right_app. simpl. rewrite Z.lxor_0_r.
  rewrite <- IH. generalize (rev l). intros k.
  induction k as [|b k IHk]; simpl; [now rewrite Z.lxor_0_r|].
  rewrite IHk, <- !Z.lxor_assoc. f_equal. apply Z.lxor_comm.
Qed.

Lemma lxor_swap (x1 x2 a1 a2 : Z) :
  Z.lxor (Z.lxor x1 x2) (Z.lxor a1 a2) = Z.lxor (Z.lxor x1 a1) (Z.lxor x2 a2).
Proof.
  rewrite !Z.lxor_assoc. f_equal.
  rewrite <- !Z.lxor_assoc. f_equal. apply Z.lxor_comm.
Qed.

Lemma lxor_sum_add (l1 l2 : list Z) :
  length l1 = length l2 ->
  fold_right Z.lxor 0 (zip_with Z.lxor l1 l2)
  = Z.lxor (fold_right Z.lxor 0 l1) (fold_right Z.lxor 0 l2).
Proof.
  revert l2. induction l1 as [|a l1 IH]; intros [|b l2] Hl;
    try discriminate Hl; simpl; [reflexivity|].
  rewrite IH by (simpl in Hl; lia). apply lxor_swap.
Qed.

Lemma zip_gmul_add (l1 l2 cs : list Z) :
  Forall byte l1 -> Forall byte l2 -> Forall byte cs ->
  zip_with gmul (strxor l1 l2) cs
  = zip_with Z.lxor (zip_with gmul l1 cs) (zip_with gmul l2 cs).
Proof.
  intros H1. revert l2 cs.
  induction H1 as [|a l1 Ha _ IH]; intros l2 cs H2 Hcs; [reflexivity|].
  destruct H2 as [|b l2 Hb H2]; [now destruct cs|].
  destruct Hcs as [|c cs Hc Hcs]; [reflexivity|].
  simpl. rewrite gmul_add_l by assumption. f_equal. now apply IH.
Qed.

Lemma L_feedback_sum (b : list Z) :
  L_feedback b
  = Z.lxor (b !!! 15%nat)
           (fold_right Z.lxor 0 (zip_with gmul (take 15 b) LC)).
Proof. unfold L_feedback. now rewrite fold_left_lxor_sum, lxor_sum_rev. Qed.

Lemma Linv_feedback_sum (b : list Z) :
  Linv_feedback b
  = Z.lxor (b !!! 0%nat)
           (fold_right Z.lxor 0 (zip_with gmul (drop 1 b) LC)).
Proof. unfold Linv_feedback. now rewrite fold_left_lxor_sum. Qed.

Lemma strxor_take (n : nat) (a b : list Z) :
  take n (strxor a b) = strxor (take n a) (take n b).
Proof. apply zip_with_take. Qed.

Lemma strxor_drop (n : nat) (a b : list Z) :
  drop n (strxor a b) = strxor (drop n a) (drop n b).
Proof. apply zip_with_drop. Qed.

Lemma strxor_lookup_total (i : nat) (a b : list Z) :
  (i < length a)%nat -> (i < length b)%nat ->
  strxor a b !!! i = Z.lxor (a !!! i) (b !!! i).
Proof. apply lookup_total_zip_with. Qed.

Lemma strxor_app (a1 a2 b1 b2 : list Z) :
  length a1 = length b1 ->
  strxor (a1 ++ a2) (b1 ++ b2) = strxor a1 b1 ++ strxor a2 b2.
Proof. apply zip_with_app. Qed.

Lemma L_step_add (a b : list Z) :
  bytes 16 a -> bytes 16 b ->
  L_step (strxor a b) = strxor (L_step a) (L_step b).
Proof.
  intros [Hla Ha] [Hlb Hb]. unfold L_step.
  change (strxor (L_feedback a :: take 15 a) (L_feedback b :: take 15 b))
    with (Z.lxor (L_feedback a) (L_feedback b)
            :: strxor (take 15 a) (take 15 b)).
  rewrite strxor_take. f_equal. rewrite !L_feedback_sum.
  rewrite strxor_lookup_total, strxor_take by lia.
  rewrite zip_gmul_add by auto using Forall_take, LC_bytes.
  rewrite lxor_sum_add by (rewrite !length_zip_with, !length_take; lia).
  apply lxor_swap.
Qed.

Lemma Linv_step_add (a b : list Z) :
  bytes 16 a -> bytes 16 b ->
  Linv_step (strxor a b) = strxor (Linv_step a) (Linv_step b).
Proof.
  intros [Hla Ha] [Hlb Hb]. unfold Linv_step.
  rewrite strxor_app by (rewrite !length_drop; lia).
  rewrite strxor_drop. f_equal.
  change (strxor [Linv_feedback a] [Linv_feedback b])
    with [Z.lxor (Linv_feedback a) (Linv_feedback b)].
  f_equal. rewrite !Linv_feedback_sum.
  rewrite strxor_lookup_total, strxor_drop by lia.
  rewrite zip_gmul_add by auto using Forall_drop, LC_bytes.
  rewrite lxor_sum_add by (rewrite !length_zip_with, !length_drop; lia).
  apply lxor_swap.
Qed.

Lemma iter_add (f : list Z -> list Z) (n : nat) (a b : list Z) :
  (forall x, bytes 16 x -> bytes 16 (f x)) ->
  (forall x y, bytes 16 x -> bytes 16 y ->
               f (strxor x y) = strxor (f x) (f y)) ->
  bytes 16 a -> bytes 16 b ->
  Nat.iter n f (strxor a b) = strxor (Nat.iter n f a) (Nat.iter n f b).
Proof.
  intros Hf Hadd Ha Hb. induction n as [|n IH]; [reflexivity|].
  rewrite !Nat.iter_succ, IH. apply Hadd; now apply iter_bytes.
Qed.

(** X5: on 16-byte blocks, L (with its 16 rounds) and Linv commute with
    XOR: L(a XOR b) == L(a) XOR L(b), and the same for Linv. *)
Theorem L_Linv_additive (a b : list Z) :
  bytes 16 a -> bytes 16 b ->
  (exists la lb,
      L a L_rounds_default = Ok la /\ L b L_rounds_default = Ok lb /\
      L (strxor a b) L_rounds_default = Ok (strxor la lb)) /\
  (exists ia ib,
      Linv a = Ok ia /\ Linv b = Ok ib /\
      Linv (strxor a b) = Ok (strxor ia ib)).
Proof.
  intros Ha Hb. pose proof (strxor_bytes 16 a b Ha Hb) as Hab. split.
  - exists (Nat.iter 16 L_step a), (Nat.iter 16 L_step b).
    rewrite !L_ok by assumption.
    rewrite (iter_add L_step 16 a b)
      by auto using L_step_bytes, L_step_add. auto.
  - exists (Nat.iter 16 Linv_step a), (Nat.iter 16 Linv_step b).
    rewrite !Linv_ok by assumption.
    rewrite (iter_add Linv_step 16 a b)
      by auto using Linv_step_bytes, Linv_step_add. auto.
Qed.

Lemma kat_cipher_bytes : bytes 16 kat_cipher.
Proof.
  split; [reflexivity|]. unfold kat_cipher, byte.
  repeat (apply List.Forall_cons; [lia|]). apply List.Forall_nil.
Qed.

Lemma L_Linv_additive_witness :
  bytes 16 kat_plain /\ bytes 16 kat_cipher /\
  (exists la lb,
      L kat_plain L_rounds_default = Ok la /\
      L kat_cipher L_rounds_default = Ok lb /\
      L (strxor kat_plain kat_cipher) L_rounds_default = Ok (strxor la lb)) /\
  (exists ia ib,
      Linv kat_plain = Ok ia /\ Linv kat_cipher = Ok ib /\
      Linv (strxor kat_plain kat_cipher) = Ok (strxor ia ib)).
Proof.
  split; [exact kat_plain_bytes|]. split; [exact kat_cipher_bytes|].
  exact (L_Linv_additive kat_plain kat_cipher
           kat_plain_bytes kat_cipher_bytes).
Defined.

(** ** Encrypting what was decrypted *)

Lemma map_PI_PIinv (b : list Z) :
  Forall byte b -> map PI_at (map PIinv_at b) = b.
Proof.
  induction 1 as [|v b Hv _ IH]; simpl; [reflexivity|].
  rewrite IH. f_equal. apply PIinv_at_ok, Hv.
Qed.

Lemma LP_LPinv (b : list Z) : bytes 16 b -> LP (LPinv b) = b.
Proof.
  intros Hb. unfold LP, LPinv.
  assert (bytes 16 (Nat.iter 16 Linv_step b)) as [_ Hi]
      by (apply iter_bytes; [exact Linv_step_bytes | exact Hb]).
  rewrite map_PI_PIinv by exact Hi. now apply L_Linv_iter.
Qed.

Section encrypt_after_decrypt.

Variable ks : list (list Z).
Hypothesis ks_length : length ks = 10%nat.
Hypothesis ks_bytes : Forall (bytes 16) ks.

(** After [n] rounds, [encrypt] has rebuilt the block [decrypt] had
    before its last [n] rounds. *)
Lemma encrypt_rebuilds_decrypt (blk : list Z) (n : nat) :
  bytes 16 blk -> (n <= 9)%nat ->
  encrypt_rounds ks n (decrypt_value ks blk)
  = strxor (ks !!! n) (decrypt_rounds ks (9 - n) blk).
Proof.
  intros Hb. induction n as [|n IH]; intros Hn; [reflexivity|].
  cbn [encrypt_rounds]. rewrite IH by lia.
  rewrite strxor_cancel.
  2:{ destruct (round_key_bytes ks ks_length ks_bytes n ltac:(lia)) as [-> _].
      destruct (decrypt_rounds_bytes ks ks_length ks_bytes (9 - n) blk Hb)
        as [-> _]. lia. }
  replace (9 - n)%nat with (S (9 - S n)) by lia.
  cbn [decrypt_rounds].
  replace (9 - (9 - S n))%nat with (S n) by lia.
  apply LP_LPinv. apply strxor_bytes.
  - apply round_key_bytes; auto; lia.
  - now apply decrypt_rounds_bytes.
Qed.

Lemma encrypt_decrypt_value (blk : list Z) :
  bytes 16 blk -> encrypt_value ks (decrypt_value ks blk) = blk.
Proof.
  intros Hb. unfold encrypt_value.
  rewrite encrypt_rebuilds_decrypt by (auto; lia).
  cbn [Nat.sub decrypt_rounds]. apply strxor_cancel.
  destruct (round_key_bytes ks ks_length ks_bytes 9 ltac:(lia)) as [-> _].
  destruct Hb as [-> _]. lia.
Qed.

Lemma decrypt_value_bytes (blk : list Z) :
  bytes 16 blk -> bytes 16 (decrypt_value ks blk).
Proof.
  intros Hb. apply strxor_bytes.
  - apply round_key_bytes; auto; lia.
  - now apply decrypt_rounds_bytes.
Qed.

End encrypt_after_decrypt.

(** X6: for every 32-byte key and every 16-byte block, the instance built
    from the key decrypts the block to a 16-byte block that it encrypts
    back to the original: encrypt and decrypt are inverse bijections of
    the 16-byte blocks. *)
Theorem encrypt_decrypt_roundtrip (key blk : list Z) :
  bytes 32 key -> bytes 16 blk ->
  exists self p,
    GOST3412Kuznechik.init key = Ok self /\
    GOST3412Kuznechik.decrypt self blk = Ok p /\
    bytes 16 p /\
    GOST3412Kuznechik.encrypt self p = Ok blk.
Proof.
  intros Hkey Hblk.
  destruct (derive_round_keys_bytes key Hkey) as [Hlen Hks].
  exists {| GOST3412Kuznechik.ks := derive_round_keys key |},
         (decrypt_value (derive_round_keys key) blk).
  split; [now apply init_ok|].
  split; [now apply decrypt_ok|].
  split; [now apply decrypt_value_bytes|].
  rewrite encrypt_ok by (auto using decrypt_value_bytes).
  f_equal. now apply encrypt_decrypt_value.
Qed.

Lemma encrypt_decrypt_roundtrip_witness :
  bytes 32 kat_key /\ bytes 16 kat_cipher /\
  exists self p,
    GOST3412Kuznechik.init kat_key = Ok self /\
    GOST3412Kuznechik.decrypt self kat_cipher = Ok p /\
    bytes 16 p /\
    GOST3412Kuznechik.encrypt self p = Ok kat_cipher.
Proof.
  split; [exact kat_key_bytes|]. split; [exact kat_cipher_bytes|].
  exact (encrypt_decrypt_roundtrip kat_key kat_cipher
           kat_key_bytes kat_cipher_bytes).
Defined.

(** ** Substitute-then-diffuse and its inverse *)

(** X7: on 16-byte blocks, the step of a decrypt round (Linv, then
    PIinv on every byte) undoes lp, and lp undoes that step; both return
    16-byte blocks. *)
Theorem lp_inverse_roundtrip (blk : list Z) :
  bytes 16 blk ->
  (exists x, lp blk = Ok x /\ bytes 16 x /\ lp_inverse x = Ok blk) /\
  (exists y, lp_inverse blk = Ok y /\ bytes 16 y /\ lp y = Ok blk).
Proof.
  intros Hb. split.
  - exists (LP blk). pose proof (LP_bytes blk Hb) as HL.
    split; [now apply lp_ok|]. split; [exact HL|].
    unfold lp_inverse. rewrite lpinv_ok by exact HL.
    f_equal. now apply LPinv_LP.
  - exists (LPinv blk). pose proof (LPinv_bytes blk Hb) as HL.
    split; [now apply lpinv_ok|]. split; [exact HL|].
    rewrite lp_ok by exact HL. f_equal. now apply LP_LPinv.
Qed.

Lemma lp_inverse_roundtrip_witness :
  bytes 16 kat_plain /\
  (exists x, lp kat_plain = Ok x /\ bytes 16 x /\ lp_inverse x = Ok kat_plain) /\
  (exists y, lp_inverse kat_plain = Ok y /\ bytes 16 y /\ lp y = Ok kat_plain).
Proof.
  split; [exact kat_plain_bytes|].
  exact (lp_inverse_roundtrip kat_plain kat_plain_bytes).
Defined.

(** ** The round count of L *)

Lemma for_const_length {S : Type} (body : S -> result S) (xs ys : list Z)
      (s : S) :
  length xs = length ys ->
  for_ xs (fun _ s => body s) s = for_ ys (fun _ s => body s) s.
Proof.
  revert ys s. induction xs as [|x xs IH]; intros [|y ys] s Hl;
    try discriminate Hl; simpl; [reflexivity|].
  destruct (body s) as [s'|e]; simpl; [|reflexivity].
  apply IH. simpl in Hl. lia.
Qed.

Lemma range_up_length (a b : Z) : length (range a b 1) = Z.to_nat (b - a).
Proof. rewrite range_up, length_map. apply length_seq. Qed.

(** X8: L with a round count of 0 or less returns its argument
    untouched, whatever its length; with one or more rounds it raises
    IndexError on a list shorter than 16; and m rounds followed by n
    rounds are m + n rounds. *)
Theorem L_round_count (blk : list Z) :
  (forall rounds, rounds <= 0 -> L blk rounds = Ok blk) /\
  (forall rounds, 0 < rounds -> (length blk < 16)%nat ->
                  L blk rounds = Raise IndexError) /\
  (forall m n, 0 <= m -> 0 <= n ->
               L blk (m + n) = (x <- L blk m ;; L x n)).
Proof.
  split; [|split].
  - intros rounds Hr. unfold L.
    assert (range 0 rounds 1 = []) as ->; [|reflexivity].
    apply length_zero_iff_nil. rewrite range_up_length. lia.
  - intros rounds Hr Hl. unfold L.
    destruct (range 0 rounds 1) as [|x xs] eqn:E.
    { apply (f_equal length) in E. rewrite range_up_length in E.
      simpl in E. lia. }
    cbn [for_]. unfold L_round at 1.
    assert (getitem blk 15 = Raise IndexError) as ->; [|reflexivity].
    unfold getitem. simpl (15 <? 0). cbv iota.
    now rewrite lookup_ge_None_2 by (simpl; lia).
  - intros m n Hm Hn. unfold L. rewrite <- for_app.
    apply for_const_length.
    rewrite length_app, !range_up_length. lia.
Qed.

Lemma L_round_count_witness :
  0 <= 5 /\ 0 <= 11 /\
  L kat_plain (5 + 11) = (x <- L kat_plain 5 ;; L x 11).
Proof.
  split; [lia|]. split; [lia|].
  apply (proj2 (proj2 (L_round_count kat_plain)) 5 11); lia.
Defined.

(** ** Key preparation of the 64-bit cipher *)

Lemma slice_take {A : Type} (l : list A) (a b : Z) (m : nat) :
  0 <= a <= b -> (Z.to_nat b <= m)%nat ->
  slice (take m l) a b = slice l a b.
Proof.
  intros Hab Hm. unfold slice.
  rewrite !take_drop_commute, take_take. do 2 f_equal. lia.
Qed.

Lemma magma_key_take (key : list Z) :
  GOST3412Magma.key (GOST3412Magma.init key)
  = GOST3412Magma.key (GOST3412Magma.init (take 32 key)).
Proof.
  unfold GOST3412Magma.init. cbn [GOST3412Magma.key]. f_equal.
  apply map_ext_in. intros i Hi%range_up_in.
  now rewrite slice_take by lia.
Qed.

Lemma concat_map_rev_perm {A : Type} (ls : list (list A)) :
  concat (map (@rev A) ls) ≡ₚ concat ls.
Proof.
  induction ls as [|l ls IH]; simpl; [reflexivity|].
  now rewrite IH, <- Permutation_rev.
Qed.

Lemma magma_chunks (key : list Z) :
  length key = 32%nat ->
  concat (map (fun i => slice key (i * 4) (i * 4 + 4)) (range 0 8 1)) = key.
Proof.
  intros Hlen.
  do 33 (destruct key as [|? key]; try discriminate Hlen).
  reflexivity.
Qed.

(** X9: the key preparation of GOST3412Magma reverses each 4-byte group:
    it keeps the length and the bytes of a 32-byte key, applying it
    twice gives the key back, and of a longer key it uses the first 32
    bytes only. *)
Theorem magma_key_preparation (key : list Z) :
  (length key = 32%nat ->
   let prepared := GOST3412Magma.key (GOST3412Magma.init key) in
   length prepared = 32%nat /\
   prepared ≡ₚ key /\
   GOST3412Magma.key (GOST3412Magma.init prepared) = key /\
   forall i j, (i < 8)%nat -> (j < 4)%nat ->
               prepared !! (4 * i + j)%nat = key !! (4 * i + (3 - j))%nat) /\
  GOST3412Magma.key (GOST3412Magma.init key)
  = GOST3412Magma.key (GOST3412Magma.init (take 32 key)).
Proof.
  split; [|apply magma_key_take].
  intros Hlen prepared.
  assert (prepared ≡ₚ key) as Hperm.
  { subst prepared. unfold GOST3412Magma.init. cbn [GOST3412Magma.key].
    transitivity
      (concat (map (fun i => slice key (i * 4) (i * 4 + 4)) (range 0 8 1)));
      [|now rewrite magma_chunks].
    rewrite <- (map_map (fun i => slice key (i * 4) (i * 4 + 4)) (@rev Z)).
    apply concat_map_rev_perm. }
  split; [now rewrite Hperm|]. split; [exact Hperm|].
  clear Hperm. subst prepared.
  do 33 (destruct key as [|? key]; try discriminate Hlen).
  set (p := GOST3412Magma.key _). vm_compute in p. subst p.
  split; [vm_compute; reflexivity|].
  intros i j Hi Hj.
  do 8 (destruct i as [|i]; [do 4 (destruct j as [|j]; [reflexivity|]); lia|]).
  lia.
Qed.

Lemma magma_key_preparation_witness :
  length kat_key = 32%nat /\
  GOST3412Magma.key
    (GOST3412Magma.init (GOST3412Magma.key (GOST3412Magma.init kat_key)))
  = kat_key.
Proof.
  split; [reflexivity|].
  exact (proj1 (proj2 (proj2 (proj1 (magma_key_preparation kat_key)
                                eq_refl)))).
Defined.

(** ** The object lp returns *)

(** X11: lp does not touch its argument. Applied to a 16-byte object it
    returns a new object holding the result, and every object of the
    store, the argument included, is as before. *)
Theorem lp_returns_new_object (g : globals) (h : heap) (l : loc)
        (b : list Z) :
  module_loaded g h -> ints_at h l = Some b -> bytes 16 b ->
  exists r l' h',
    lp b = Ok r /\
    Store.lp g l h = (Ok l', h') /\
    h !! l' = None /\ unchanged h h' /\
    ints_at h' l = Some b /\ ints_at h' l' = Some r.
Proof.
  intros Hg Hl HB. destruct Hg as (HLC & HPI & HPIinv & HGF & HC).
  assert (module_loaded g h) as Hg by (repeat split; assumption).
  unfold Store.lp, bindM. rewrite (run_ints_of h l b Hl).
  rewrite (comprehensionM_map _ PI_at).
  2:{ intros v Hv. apply (run_item h _ PI); [exact HPI|].
      apply PI_at_ok. destruct HB as [_ HB]. rewrite Forall_forall in HB.
      now apply HB, list_elem_of_In. }
  destruct (run_alloc h (map PI_at b)) as (new & -> & Hnew & Hsub).
  rewrite (run_L g h Hg _ new (map PI_at b));
    [|exact Hsub | exact Hnew | apply ints_at_insert
     |now apply map_PI_bytes].
  rewrite insert_insert_eq.
  exists (LP b), new, (<[new := OInts (LP b)]> h).
  assert (h ⊆ <[new := OInts (LP b)]> h) as Hsub'
      by now apply insert_subseteq.
  split; [now apply lp_ok|]. split; [reflexivity|]. split; [exact Hnew|].
  split; [now apply unchanged_subseteq|].
  split; [now apply (ints_at_weaken h) | apply ints_at_insert].
Qed.

Lemma lp_returns_new_object_witness :
  module_loaded kat_globals kat_store /\
  ints_at kat_store kat_block = Some kat_plain /\
  bytes 16 kat_plain /\
  exists r l' h',
    lp kat_plain = Ok r /\
    Store.lp kat_globals kat_block kat_store = (Ok l', h') /\
    kat_store !! l' = None /\ unchanged kat_store h' /\
    ints_at h' kat_block = Some kat_plain /\ ints_at h' l' = Some r.
Proof.
  destruct kat_store_loaded as (Hg & _ & Hb).
  split; [exact Hg|]. split; [exact Hb|]. split; [exact kat_plain_bytes|].
  exact (lp_returns_new_object kat_globals kat_store kat_block kat_plain
           Hg Hb kat_plain_bytes).
Defined.
